(** * Karatsuba.py: arbitrary-precision add, subtract and Karatsuba multiply

    A shallow embedding of [src/Karatsuba.py] (Keith Schwarz's Karatsuba
    multiplication over digit arrays) and the properties of its three
    functions [add], [subtract] and [multiply].

    The source is Python 2: [/] on integers is floor division, which together
    with [%] coincides with [Z.div] and [Z.modulo] for every non-zero divisor;
    a zero divisor raises [ZeroDivisionError].  Python integers are unbounded
    and are modelled by [Z]; Python lists are modelled by [list Z], indexed
    with stdpp's lookup and updated with stdpp's insert. *)

From Stdlib Require Import ZArith Lia QArith Qcanon Qreduction Sorted.
From stdpp Require Import base tactics option list numbers.

Local Open Scope Z_scope.

(** ** Outcomes of running Python code *)

(** The exceptions the three functions can raise. *)
Inductive exn : Type :=
  | AssertionError
  | ZeroDivisionError
  | IndexError.

(** A call returns a value, raises, or (for the recursive [multiply], which
    is run with a bound on its recursion depth) exhausts that bound. *)
Inductive res (A : Type) : Type :=
  | Ok (a : A)
  | Raise (e : exn)
  | OutOfFuel.

Arguments Ok {A} a.
Arguments Raise {A} e.
Arguments OutOfFuel {A}.

#[global] Instance res_ret : MRet res := fun A a => Ok a.

#[global] Instance res_bind : MBind res := fun A B f m =>
  match m with
  | Ok a => f a
  | Raise e => Raise e
  | OutOfFuel => OutOfFuel
  end.

(** ** Python primitives *)

Module Py.

(** [a / b] on Python 2 integers. *)
Definition div (a b : Z) : res Z :=
  if decide (b = 0) then Raise ZeroDivisionError else Ok (a / b).

(** [a % b]. *)
Definition mod_ (a b : Z) : res Z :=
  if decide (b = 0) then Raise ZeroDivisionError else Ok (a mod b).

(** [l[i]] for an index [i >= 0]. *)
Definition getitem (l : list Z) (i : nat) : res Z :=
  match l !! i with
  | Some x => Ok x
  | None => Raise IndexError
  end.

(** The position that the negative index [-i] denotes in [l]:
    [len(l) - i] when [1 <= i <= len(l)], position [0] for [-0], and
    nothing otherwise. *)
Definition neg_index (l : list Z) (i : nat) : option nat :=
  match i with
  | O => Some O
  | S _ => if decide (i ≤ length l)%nat then Some (length l - i)%nat else None
  end.

(** [l[-i]]. *)
Definition getitem_neg (l : list Z) (i : nat) : res Z :=
  match neg_index l i with
  | Some k => getitem l k
  | None => Raise IndexError
  end.

(** [l[-i] = v], giving the updated list. *)
Definition setitem_neg (l : list Z) (i : nat) (v : Z) : res (list Z) :=
  match neg_index l i with
  | Some k => if decide (k < length l)%nat then Ok (<[k := v]> l)
              else Raise IndexError
  | None => Raise IndexError
  end.

(** [[0 for i in range(len(l), length)] + l]. *)
Definition pad (length_ : nat) (l : list Z) : list Z :=
  replicate (length_ - length l) 0 ++ l.

End Py.

(** ** The three functions of Karatsuba.py *)

(** The body of the [for i in range(1, len(lhs) + 1)] loop of [add], run
    [todo] more times from index [i]; the state is the carry and the digits
    emitted so far (least significant first, as the source appends them). *)
Fixpoint add_loop (todo i : nat) (lhs rhs : list Z) (base : Z)
    (carry : Z) (result : list Z) : res (Z * list Z) :=
  match todo with
  | O => Ok (carry, result)
  | S todo' =>
      l ← Py.getitem_neg lhs i;
      r ← Py.getitem_neg rhs i;
      let column := l + r + carry in
      d ← Py.mod_ column base;
      carry' ← Py.div column base;
      add_loop todo' (S i) lhs rhs base carry' (result ++ [d])
  end.

Definition add (lhs rhs : list Z) (base : Z) : res (list Z) :=
  let length_ := (length lhs `max` length rhs)%nat in
  let lhs := Py.pad length_ lhs in
  let rhs := Py.pad length_ rhs in
  '(carry, result) ← add_loop (length lhs) 1 lhs rhs base 0 [];
  let result := if decide (carry ≠ 0) then result ++ [carry] else result in
  Ok (reverse result).

(** The [while j <= length] loop of [subtract]: [todo] is the number of
    indices from [j] up to [length], so the loop condition fails exactly when
    [todo] is [0].  The buffer [lhs] is updated in place. *)
Fixpoint borrow_walk (todo j : nat) (lhs : list Z) (base : Z) : res (list Z) :=
  match todo with
  | O => Ok lhs
  | S todo' =>
      d ← Py.getitem_neg lhs j;
      d' ← Py.mod_ (d + (base - 1)) base;
      lhs' ← Py.setitem_neg lhs j d';
      now ← Py.getitem_neg lhs' j;
      if decide (now ≠ base - 1) then Ok lhs'
      else borrow_walk todo' (S j) lhs' base
  end.

(** The [for i in range(1, len(lhs) + 1)] loop of [subtract]; the state is the
    padded copy of [lhs], which the borrow walk mutates, and the digits
    emitted so far. *)
Fixpoint sub_loop (todo i length_ : nat) (lhs rhs : list Z) (base : Z)
    (result : list Z) : res (list Z) :=
  match todo with
  | O => Ok result
  | S todo' =>
      l ← Py.getitem_neg lhs i;
      r ← Py.getitem_neg rhs i;
      let difference := l - r in
      if decide (0 ≤ difference) then
        sub_loop todo' (S i) length_ lhs rhs base (result ++ [difference])
      else
        lhs' ← borrow_walk (length_ - i) (i + 1) lhs base;
        sub_loop todo' (S i) length_ lhs' rhs base
          (result ++ [difference + base])
  end.

Definition subtract (lhs rhs : list Z) (base : Z) : res (list Z) :=
  let length_ := (length lhs `max` length rhs)%nat in
  let lhs := Py.pad length_ lhs in
  let rhs := Py.pad length_ rhs in
  result ← sub_loop (length lhs) 1 length_ lhs rhs base [];
  Ok (reverse result).

(** [multiply], with [fuel] bounding the depth of the recursion. *)
Fixpoint multiply (fuel : nat) (lhs rhs : list Z) (base : Z) : res (list Z) :=
  match fuel with
  | O => OutOfFuel
  | S fuel' =>
      if decide (0 < length lhs ∧ 0 < length rhs)%nat then
        let length_ := (length lhs `max` length rhs)%nat in
        let lhs := Py.pad length_ lhs in
        let rhs := Py.pad length_ rhs in
        if decide (length_ = 1%nat) then
          a ← Py.getitem lhs 0;
          b ← Py.getitem rhs 0;
          let result := a * b in
          if decide (result < base) then Ok [result]
          else
            q ← Py.div result base;
            r ← Py.mod_ result base;
            Ok [q; r]
        else
          let m0 := ((length_ + 1) / 2)%nat in
          let m1 := (length_ / 2)%nat in
          let x0 := take m0 lhs in
          let x1 := drop m0 lhs in
          let y0 := take m0 rhs in
          let y1 := drop m0 rhs in
          p0 ← multiply fuel' x0 y0 base;
          sx ← add x0 x1 base;
          sy ← add y0 y1 base;
          p1 ← multiply fuel' sx sy base;
          p2 ← multiply fuel' x1 y1 base;
          let z0 := p0 in
          s ← add p0 p2 base;
          z1 ← subtract p1 s base;
          let z2 := p2 in
          let z0prod := z0 ++ replicate (2 * m1) 0 in
          let z1prod := z1 ++ replicate m1 0 in
          let z2prod := z2 in
          t ← add z0prod z1prod base;
          add t z2prod base
      else Raise AssertionError
  end.

(** ** What a digit vector means *)

(** The integer a most-significant-first digit vector denotes. *)
Definition digits_value (base : Z) (l : list Z) : Z :=
  foldl (fun acc d => acc * base + d) 0 l.

(** Every digit lies in [[0, base)]. *)
Definition valid_digits (base : Z) (l : list Z) : Prop :=
  Forall (fun d => 0 ≤ d < base) l.

(** Minimal length: no leading zero digit, except that a lone zero digit may
    stand for zero. *)
Definition minimal (l : list Z) : Prop :=
  match l with
  | d :: _ :: _ => d ≠ 0
  | _ => True
  end.

(** [base ^ n], the weight of the digit [n] places from the right. *)
Definition pow_base (base : Z) (n : nat) : Z := base ^ Z.of_nat n.

(** The sum of the two halves into which [multiply] splits an operand, once
    it has been padded to [n] digits. *)
Definition split_sum (base : Z) (n : nat) (l : list Z) : Z :=
  let m0 := ((n + 1) / 2)%nat in
  digits_value base (take m0 (Py.pad n l))
  + digits_value base (drop m0 (Py.pad n l)).

(** One of the pre-sums [add(x0, x1)], [add(y0, y1)] is longer than the high
    half: the call for [p1] may then get operands as long as the current
    ones. *)
Definition may_carry (base : Z) (lhs rhs : list Z) : Prop :=
  let n := (length lhs `max` length rhs)%nat in
  let m0 := ((n + 1) / 2)%nat in
  (2 ≤ n)%nat
  ∧ (pow_base base m0 ≤ split_sum base n lhs
     ∨ pow_base base m0 ≤ split_sum base n rhs).

#[global] Instance may_carry_dec base lhs rhs :
  Decision (may_carry base lhs rhs).
Proof. unfold may_carry. apply _. Defined.

(** A bound on the depth of the recursion of [multiply]: twice the length of
    the longer operand, plus one when a pre-sum carries. *)
Definition depth_bound (base : Z) (lhs rhs : list Z) : nat :=
  (2 * (length lhs `max` length rhs)
   + (if decide (may_carry base lhs rhs) then 1 else 0))%nat.

(** Digits of a literal vector are in range. *)
Ltac solve_valid :=
  unfold valid_digits; repeat (apply Forall_cons_2; [lia|]); apply Forall_nil_2.


(** ** PermutationGenerator.py *)

(** A generator is modelled by the list of the values it yields, in order. *)
Module PermutationGenerator.

(** The values yielded by
    [for i in idx: for perm in body(i): yield perm]. *)
Fixpoint yield_each {A : Type} (idx : list nat)
    (body : nat → res (list (list A))) : res (list (list A)) :=
  match idx with
  | [] => Ok []
  | i :: idx' =>
      perms ← body i;
      rest ← yield_each idx' body;
      Ok (perms ++ rest)
  end.

(** [recPermutations(elems, soFar)], with [fuel] bounding the depth of the
    recursion. *)
Fixpoint recPermutations {A : Type} (fuel : nat) (elems soFar : list A)
    : res (list (list A)) :=
  match fuel with
  | O => OutOfFuel
  | S fuel' =>
      if decide (length elems = 0%nat) then Ok [soFar]
      else
        yield_each (seq 0 (length elems)) (fun i =>
          match elems !! i with
          | Some x =>
              recPermutations fuel' (take i elems ++ drop (i + 1) elems)
                (soFar ++ [x])
          | None => Raise IndexError
          end)
  end.

(** [permutations(elems)]. *)
Definition permutations {A : Type} (fuel : nat) (elems : list A)
    : res (list (list A)) :=
  perms ← recPermutations fuel elems [];
  Ok perms.

(** The arrangements of [n] elements, chosen first element first; used to
    describe what the generator yields. *)
Fixpoint arrangements {A : Type} (n : nat) (elems : list A) : list (list A) :=
  match n with
  | O => [[]]
  | S n' =>
      seq 0 (length elems) ≫= fun i =>
        match elems !! i with
        | Some x => (x ::.) <$> arrangements n' (delete i elems)
        | None => []
        end
  end.

End PermutationGenerator.

(** ** RandomBag.py *)

(** The bag keeps its elements in the list [_elems], a class attribute that
    the methods mutate in place; the model threads that list through the
    methods.  [randint(0, len(self) - 1)] is modelled by its outcome, the
    argument [draw] of [removeRandom]. *)
Module RandomBag.

(** [l[i]] for an index [i >= 0]. *)
Definition getitem {A : Type} (l : list A) (i : nat) : res A :=
  match l !! i with
  | Some x => Ok x
  | None => Raise IndexError
  end.

(** [l[-1]]. *)
Definition getitem_last {A : Type} (l : list A) : res A :=
  match length l with
  | O => Raise IndexError
  | S k => getitem l k
  end.

(** [l[i] = v] for an index [i >= 0]. *)
Definition setitem {A : Type} (l : list A) (i : nat) (v : A) : res (list A) :=
  if decide (i < length l)%nat then Ok (<[i := v]> l) else Raise IndexError.

(** [l[-1] = v]. *)
Definition setitem_last {A : Type} (l : list A) (v : A) : res (list A) :=
  match length l with
  | O => Raise IndexError
  | S k => setitem l k v
  end.

(** [l.pop()]: the last element and the list without it. *)
Definition pop {A : Type} (l : list A) : res (A * list A) :=
  match length l with
  | O => Raise IndexError
  | S k => x ← getitem l k; Ok (x, take k l)
  end.

(** [insert(self, value)]. *)
Definition insert {A : Type} (elems : list A) (value : A) : list A :=
  elems ++ [value].

(** [__len__(self)]. *)
Definition len {A : Type} (elems : list A) : nat := length elems.

(** [__iter__(self)]: the elements in the order the iterator gives them. *)
Definition iter {A : Type} (elems : list A) : list A := elems.

(** [removeRandom(self)]: the value handed back and the list left. *)
Definition removeRandom {A : Type} (elems : list A) (draw : nat)
    : res (A * list A) :=
  if decide (len elems ≠ 0%nat) then
    let i := draw in
    x ← getitem elems i;
    y ← getitem_last elems;
    elems ← setitem_last elems x;
    elems ← setitem elems i y;
    pop elems
  else Raise AssertionError.

End RandomBag.

(** ** EgyptianFractions.py *)

(** A [Fraction] of the Python library is a rational in lowest terms with a
    positive denominator, that is a [Qc]; its arithmetic normalizes every
    result, as [Qc]'s does. *)
Module EgyptianFractions.

(** What a call does: it returns the list of fractions, raises
    [Exception("Rational number out of range", rational)], raises
    [ZeroDivisionError], or exhausts the bound on the iterations of its
    [while True] loop. *)
Inductive outcome : Type :=
  | Returned (result : list Qc)
  | RaisedException (rational : Qc)
  | RaisedZeroDivisionError
  | OutOfFuel.

(** [q.numerator] and [q.denominator]. *)
Definition numerator (q : Qc) : Z := Qnum (this q).
Definition denominator (q : Qc) : Z := Zpos (Qden (this q)).

(** [Fraction(n, d)] on integers: in lowest terms, with the sign in the
    numerator; nothing when [d] is zero, where Python raises
    [ZeroDivisionError]. *)
Definition Fraction (n d : Z) : option Qc :=
  match d with
  | Z0 => None
  | Zpos p => Some (Q2Qc (n # p))
  | Zneg p => Some (Q2Qc (- n # p))
  end.

(** The [while True] loop, run at most [fuel] times. *)
Fixpoint greedy_loop (fuel : nat) (rational : Qc) (result : list Qc)
    : outcome :=
  match fuel with
  | O => OutOfFuel
  | S fuel' =>
      if decide (numerator rational = 1) then Returned (result ++ [rational])
      else if decide (numerator rational = 0) then RaisedZeroDivisionError
      else
        match Fraction 1 (denominator rational / numerator rational + 1) with
        | None => RaisedZeroDivisionError
        | Some unitFraction =>
            greedy_loop fuel' (rational - unitFraction)%Qc
              (result ++ [unitFraction])
        end
  end.

(** [greedyEgyptianFraction(rational)]. *)
Definition greedyEgyptianFraction (fuel : nat) (rational : Qc) : outcome :=
  if decide (rational ≤ 0 ∨ 1 ≤ rational)%Qc then RaisedException rational
  else greedy_loop fuel rational [].

End EgyptianFractions.

(** The sum of a list of fractions. *)
Definition Qc_sum (l : list Qc) : Qc := foldr Qcplus 0%Qc l.

(** ** The primitives on inputs in range *)

Lemma div_ok (a b : Z) : b ≠ 0 → Py.div a b = Ok (a / b).
Proof. intros Hb. unfold Py.div. by rewrite decide_False. Qed.

Lemma mod_ok (a b : Z) : b ≠ 0 → Py.mod_ a b = Ok (a mod b).
Proof. intros Hb. unfold Py.mod_. by rewrite decide_False. Qed.

Lemma neg_index_ok (l : list Z) (i : nat) :
  (1 ≤ i ≤ length l)%nat → Py.neg_index l i = Some (length l - i)%nat.
Proof.
  intros [H1 H2]. destruct i as [|i]; [lia|].
  unfold Py.neg_index. by rewrite decide_True.
Qed.

Lemma getitem_neg_ok (l : list Z) (i : nat) (x : Z) :
  (1 ≤ i ≤ length l)%nat →
  l !! (length l - i)%nat = Some x →
  Py.getitem_neg l i = Ok x.
Proof.
  intros Hi Hx. unfold Py.getitem_neg, Py.getitem.
  by rewrite neg_index_ok, Hx.
Qed.

Lemma setitem_neg_ok (l : list Z) (i : nat) (v : Z) :
  (1 ≤ i ≤ length l)%nat →
  Py.setitem_neg l i v = Ok (<[(length l - i)%nat := v]> l).
Proof.
  intros Hi. unfold Py.setitem_neg. rewrite neg_index_ok by done.
  rewrite decide_True; [done | lia].
Qed.

Lemma length_pad (n : nat) (l : list Z) :
  (length l ≤ n)%nat → length (Py.pad n l) = n.
Proof.
  intros Hn. unfold Py.pad. rewrite length_app, length_replicate. lia.
Qed.

(** ** Powers of the base *)

Lemma pow_base_0 (base : Z) : pow_base base 0 = 1.
Proof. reflexivity. Qed.

Lemma pow_base_S (base : Z) (n : nat) :
  pow_base base (S n) = base * pow_base base n.
Proof. unfold pow_base. rewrite Nat2Z.inj_succ. apply Z.pow_succ_r. lia. Qed.

Lemma pow_base_add (base : Z) (n m : nat) :
  pow_base base (n + m) = pow_base base n * pow_base base m.
Proof. unfold pow_base. rewrite Nat2Z.inj_add. apply Z.pow_add_r; lia. Qed.

Lemma pow_base_pos (base : Z) (n : nat) : 0 < base → 0 < pow_base base n.
Proof. intros Hb. unfold pow_base. apply Z.pow_pos_nonneg; lia. Qed.

Lemma pow_base_le (base : Z) (n m : nat) :
  0 < base → (n ≤ m)%nat → pow_base base n ≤ pow_base base m.
Proof.
  intros Hb Hnm. unfold pow_base. apply Z.pow_le_mono_r; lia.
Qed.

(** ** The value of a digit vector *)

Section Value.
Variable base : Z.

Lemma value_nil : digits_value base [] = 0.
Proof. reflexivity. Qed.

Lemma value_snoc (l : list Z) (d : Z) :
  digits_value base (l ++ [d]) = digits_value base l * base + d.
Proof. unfold digits_value. by rewrite foldl_app. Qed.

Lemma value_app (l1 l2 : list Z) :
  digits_value base (l1 ++ l2)
  = digits_value base l1 * pow_base base (length l2) + digits_value base l2.
Proof.
  induction l2 as [|d l2 IH] using rev_ind.
  - rewrite app_nil_r, value_nil, pow_base_0. lia.
  - rewrite app_assoc, !value_snoc, IH, length_app. simpl.
    rewrite Nat.add_1_r, pow_base_S. lia.
Qed.

Lemma value_cons (d : Z) (l : list Z) :
  digits_value base (d :: l)
  = d * pow_base base (length l) + digits_value base l.
Proof.
  change (d :: l) with ([d] ++ l). rewrite value_app.
  unfold digits_value at 1. simpl. lia.
Qed.

Lemma value_replicate_0 (n : nat) : digits_value base (replicate n 0) = 0.
Proof.
  induction n as [|n IH]; [done|].
  simpl. rewrite value_cons, IH. lia.
Qed.

Lemma value_pad (n : nat) (l : list Z) :
  digits_value base (Py.pad n l) = digits_value base l.
Proof. unfold Py.pad. rewrite value_app, value_replicate_0. lia. Qed.

Lemma value_shift (l : list Z) (n : nat) :
  digits_value base (l ++ replicate n 0)
  = digits_value base l * pow_base base n.
Proof. rewrite value_app, value_replicate_0, length_replicate. lia. Qed.

Lemma value_reverse_snoc (l : list Z) (d : Z) :
  digits_value base (reverse (l ++ [d]))
  = d * pow_base base (length l) + digits_value base (reverse l).
Proof. by rewrite reverse_snoc, value_cons, length_reverse. Qed.

Lemma value_take_drop (k : nat) (l : list Z) :
  digits_value base l
  = digits_value base (take k l) * pow_base base (length l - k)
    + digits_value base (drop k l).
Proof.
  rewrite <- (take_drop k l) at 1. by rewrite value_app, length_drop.
Qed.

Lemma valid_pad (n : nat) (l : list Z) :
  0 < base → valid_digits base l → valid_digits base (Py.pad n l).
Proof.
  intros Hb Hl. unfold Py.pad, valid_digits.
  apply Forall_app. split; [|done].
  apply Forall_replicate. lia.
Qed.

Lemma valid_lookup (l : list Z) (i : nat) (x : Z) :
  valid_digits base l → l !! i = Some x → 0 ≤ x < base.
Proof. intros Hl Hx. exact (proj1 (Forall_lookup _ l) Hl i x Hx). Qed.

Lemma value_bound (l : list Z) :
  valid_digits base l →
  0 ≤ digits_value base l < pow_base base (length l).
Proof.
  induction l as [|d l IH] using rev_ind; intros Hl.
  - rewrite value_nil, pow_base_0. lia.
  - apply Forall_app in Hl as [Hl Hd]. apply Forall_inv in Hd.
    specialize (IH Hl). simpl in Hd.
    rewrite value_snoc, length_app. simpl.
    rewrite Nat.add_1_r, pow_base_S.
    assert ((digits_value base l + 1) * base
            ≤ pow_base base (length l) * base) by nia.
    nia.
Qed.

End Value.

(** ** [add] *)

Section Add.
Variable base : Z.
Hypothesis base_ge_2 : 2 ≤ base.

(** Reading column [S k] from the right of a buffer of length [n]. *)
Lemma column_lookup (l : list Z) (n k : nat) :
  length l = n → (k < n)%nat → valid_digits base l →
  ∃ x, l !! (n - S k)%nat = Some x
       ∧ Py.getitem_neg l (S k) = Ok x
       ∧ 0 ≤ x < base
       ∧ drop (n - S k) l = x :: drop (n - k) l.
Proof.
  intros Hn Hk Hl.
  destruct (lookup_lt_is_Some_2 l (n - S k)%nat) as [x Hx]; [lia|].
  exists x. split; [done|]. split.
  - apply getitem_neg_ok; [lia|]. by rewrite Hn.
  - split; [by eapply valid_lookup|].
    rewrite (drop_S l x (n - S k)) by done.
    do 2 f_equal. lia.
Qed.

(** The loop invariant of [add]: after [k] columns, the digits emitted so
    far together with the carry account for the [k] low digits of both
    operands. *)
Lemma add_loop_spec (n : nat) (L R : list Z) :
  length L = n → length R = n →
  valid_digits base L → valid_digits base R →
  ∀ (todo k : nat) (carry : Z) (result : list Z),
    (k + todo = n)%nat →
    length result = k → valid_digits base result → 0 ≤ carry ≤ 1 →
    digits_value base (reverse result) + carry * pow_base base k
    = digits_value base (drop (n - k) L)
      + digits_value base (drop (n - k) R) →
    ∃ carry' result',
      add_loop todo (S k) L R base carry result = Ok (carry', result')
      ∧ length result' = n ∧ valid_digits base result' ∧ 0 ≤ carry' ≤ 1
      ∧ digits_value base (reverse result') + carry' * pow_base base n
        = digits_value base L + digits_value base R.
Proof.
  intros HL HR HvL HvR todo.
  induction todo as [|todo IH]; intros k carry result Hk Hlen Hres Hc Hinv.
  - assert (k = n) as -> by lia.
    rewrite Nat.sub_diag in Hinv. simpl in Hinv.
    exists carry, result. by repeat split; try lia.
  - destruct (column_lookup L n k) as (l & _ & Hgl & Hl & HdL);
      [done|lia|done|].
    destruct (column_lookup R n k) as (r & _ & Hgr & Hr & HdR);
      [done|lia|done|].
    simpl. rewrite Hgl, Hgr. simpl.
    rewrite mod_ok, div_ok by lia. simpl.
    set (column := l + r + carry).
    assert (0 ≤ column mod base < base) by (apply Z.mod_pos_bound; lia).
    assert (0 ≤ column / base ≤ 1).
    { split; [apply Z.div_pos; lia|].
      assert (column / base < 2); [|lia].
      apply Z.div_lt_upper_bound; lia. }
    apply (IH (S k)); try done; try lia.
    + rewrite length_app. simpl. lia.
    + apply Forall_app. split; [done|]. by apply Forall_singleton.
    + rewrite value_reverse_snoc, Hlen, pow_base_S.
      rewrite HdL, HdR in *.
      rewrite !value_cons, !length_drop, HL, HR.
      replace (n - (n - k))%nat with k by lia.
      pose proof (Z.div_mod column base ltac:(lia)) as Hdm.
      subst column. nia.
Qed.

(** [add] returns the digits of the sum; it is one digit longer than the
    longer operand exactly when a final carry is emitted. *)
Lemma add_spec (lhs rhs : list Z) :
  valid_digits base lhs → valid_digits base rhs →
  ∃ r, add lhs rhs base = Ok r
       ∧ valid_digits base r
       ∧ digits_value base r = digits_value base lhs + digits_value base rhs
       ∧ let n := (length lhs `max` length rhs)%nat in
         length r = n
         ∨ (length r = S n ∧ pow_base base n ≤ digits_value base r).
Proof.
  intros Hl Hr. unfold add.
  set (n := (length lhs `max` length rhs)%nat).
  destruct (add_loop_spec n (Py.pad n lhs) (Py.pad n rhs)) with
    (todo := n) (k := 0%nat) (carry := 0) (result := @nil Z)
    as (carry & result & Hrun & Hlen & Hres & Hc & Hval);
    try (apply length_pad; lia); try (apply valid_pad; [lia|done]);
    try done; try lia; try (by constructor).
  { rewrite Nat.sub_0_r, !drop_ge by (rewrite length_pad; lia). done. }
  rewrite !value_pad in Hval.
  rewrite length_pad by lia. rewrite Hrun. simpl.
  destruct (decide (carry ≠ 0)) as [Hnz|Hz].
  - eexists. split; [done|].
    assert (carry = 1) as -> by lia.
    split; [|split].
    + apply Forall_reverse, Forall_app. split; [done|].
      apply Forall_singleton. lia.
    + rewrite value_reverse_snoc, Hlen. lia.
    + right. rewrite length_reverse, length_app, Hlen. simpl.
      split; [lia|]. rewrite value_reverse_snoc, Hlen.
      pose proof (value_bound base (reverse result)
                    ltac:(by apply Forall_reverse)). lia.
  - eexists. split; [done|].
    assert (carry = 0) as -> by lia.
    split; [|split].
    + by apply Forall_reverse.
    + lia.
    + left. by rewrite length_reverse.
Qed.

End Add.

(** ** [subtract] *)

Section Subtract.
Variable base : Z.
Hypothesis base_ge_2 : 2 ≤ base.

(** The borrow walk over the [todo] most significant digits of the buffer
    subtracts one from the number they form, modulo [base ^ todo]: when
    all of them are zero the walk leaves the loop at [j > length] and the
    digits have wrapped around to [base - 1]. *)
Lemma borrow_walk_spec (n : nat) :
  ∀ (todo j : nat) (lhs : list Z),
    length lhs = n → valid_digits base lhs →
    (1 ≤ j)%nat → (j + todo = S n)%nat →
    ∃ lhs',
      borrow_walk todo j lhs base = Ok lhs'
      ∧ length lhs' = n
      ∧ valid_digits base lhs'
      ∧ drop todo lhs' = drop todo lhs
      ∧ ∃ w, digits_value base (take todo lhs')
             = digits_value base (take todo lhs) - 1 + w * pow_base base todo.
Proof.
  induction todo as [|todo IH]; intros j lhs Hlen Hvalid Hj1 Hj.
  - exists lhs. repeat split; try done. exists 1. by rewrite pow_base_0.
  - assert (n - j = todo)%nat as Hidx by lia.
    destruct (lookup_lt_is_Some_2 lhs todo) as [d Hd]; [lia|].
    pose proof (valid_lookup base lhs todo d Hvalid Hd) as Hdr.
    set (d' := (d + (base - 1)) mod base).
    assert (0 ≤ d' < base) as Hd'r by (apply Z.mod_pos_bound; lia).
    set (lhs1 := <[todo := d']> lhs).
    assert (length lhs1 = n) as Hlen1
      by (unfold lhs1; by rewrite length_insert).
    assert (lhs1 !! todo = Some d') as Hd1
      by (apply list_lookup_insert_eq; lia).
    assert (valid_digits base lhs1) as Hvalid1
      by (apply Forall_insert; done).
    assert (take todo lhs1 = take todo lhs) as Htake1
      by (apply take_insert_ge; lia).
    assert (drop (S todo) lhs1 = drop (S todo) lhs) as Hdrop1
      by (apply drop_insert_lt; lia).
    simpl.
    rewrite (getitem_neg_ok lhs j d) by (rewrite ?Hlen, ?Hidx; done || lia).
    simpl. rewrite mod_ok by lia. simpl.
    rewrite setitem_neg_ok by lia. rewrite Hlen, Hidx. simpl.
    fold d' lhs1.
    rewrite (getitem_neg_ok lhs1 j d') by (rewrite ?Hlen1, ?Hidx; done || lia).
    simpl.
    destruct (decide (d' ≠ base - 1)) as [Hstop|Hwrap].
    + exists lhs1. repeat split; try done.
      exists 0.
      rewrite (take_S_r lhs1 todo d'), (take_S_r lhs todo d) by done.
      rewrite !value_snoc, Htake1.
      assert (d' = d - 1); [|lia].
      destruct (decide (d = 0)) as [->|Hne].
      * exfalso. apply Hstop. unfold d'.
        rewrite Z.add_0_l. apply Z.mod_small. lia.
      * unfold d'. replace (d + (base - 1)) with (d - 1 + 1 * base) by lia.
        rewrite Z_mod_plus_full. apply Z.mod_small. lia.
    + assert (d' = base - 1) as Hd'e
        by (destruct (decide (d' = base - 1)); tauto).
      assert (d = 0) as Hd0.
      { destruct (decide (d = 0)) as [|Hne]; [done|]. exfalso.
        assert (d' = d - 1); [|lia].
        unfold d'. replace (d + (base - 1)) with (d - 1 + 1 * base) by lia.
        rewrite Z_mod_plus_full. apply Z.mod_small. lia. }
      destruct (IH (S j) lhs1)
        as (lhs' & Hrun & Hlen' & Hvalid' & Hdrop' & w & Hw);
        [done|done|lia|lia|].
      exists lhs'. split; [done|]. split; [done|]. split; [done|].
      assert (lhs' !! todo = Some d') as Hd2.
      { rewrite <- (Nat.add_0_r todo), <- lookup_drop, Hdrop', lookup_drop.
        by rewrite Nat.add_0_r. }
      split.
      * rewrite <- Hdrop1.
        replace (S todo) with (todo + 1)%nat by lia.
        rewrite <- !drop_drop. by rewrite Hdrop'.
      * exists w.
        rewrite (take_S_r lhs' todo d'), (take_S_r lhs todo d) by done.
        rewrite !value_snoc, Hw, Htake1, pow_base_S. lia.
Qed.

(** The loop invariant of [subtract]: after [k] columns, the digits still
    to be read from the (mutated) buffer, followed by the digits emitted so
    far, denote [V] minus the [k] low digits of [rhs], up to a multiple of
    [base ^ n]; [V] is the value of [lhs] on entry. *)
Lemma sub_loop_spec (n : nat) (R : list Z) (V : Z) :
  length R = n → valid_digits base R →
  ∀ (todo k : nat) (lhs result : list Z),
    (k + todo = n)%nat →
    length lhs = n → valid_digits base lhs →
    length result = k → valid_digits base result →
    (∃ w, digits_value base (take (n - k) lhs) * pow_base base k
          + digits_value base (reverse result)
          = V - digits_value base (drop (n - k) R) + w * pow_base base n) →
    ∃ result',
      sub_loop todo (S k) n lhs R base result = Ok result'
      ∧ length result' = n ∧ valid_digits base result'
      ∧ ∃ w, digits_value base (reverse result')
             = V - digits_value base R + w * pow_base base n.
Proof.
  intros HR HvR todo.
  induction todo as [|todo IH];
    intros k lhs result Hk Hlen Hvalid Hrlen Hres [w Hinv].
  - assert (k = n) as -> by lia.
    rewrite Nat.sub_diag in Hinv. simpl in Hinv.
    exists result. repeat split; try done. exists w.
    rewrite take_0, drop_0, value_nil in Hinv. lia.
  - destruct (column_lookup base lhs n k) as (l & Hl & Hgl & Hlr & _);
      [done|lia|done|].
    destruct (column_lookup base R n k) as (r & _ & Hgr & Hrr & HdR);
      [done|lia|done|].
    assert (n - k = S (n - S k))%nat as Hnk by lia.
    rewrite Hnk, (take_S_r lhs _ l), value_snoc in Hinv by done.
    rewrite <- Hnk in Hinv.
    assert (digits_value base (drop (n - S k) R)
            = r * pow_base base k + digits_value base (drop (n - k) R)) as HvdR.
    { rewrite HdR, value_cons, length_drop, HR. do 3 f_equal. lia. }
    simpl. rewrite Hgl, Hgr. simpl.
    destruct (decide (0 ≤ l - r)) as [Hpos|Hneg].
    + apply (IH (S k)); try done; try lia.
      * rewrite length_app. simpl. lia.
      * apply Forall_app. split; [done|]. apply Forall_singleton. lia.
      * exists w. rewrite value_reverse_snoc, Hrlen, pow_base_S, HvdR. lia.
    + destruct (borrow_walk_spec n (n - S k) (S k + 1) lhs)
        as (lhs' & Hrun & Hlen' & Hvalid' & _ & w' & Hw'); [done|done|lia|lia|].
      simpl in Hrun. rewrite Hrun. simpl.
      apply (IH (S k)); try done; try lia.
      * rewrite length_app. simpl. lia.
      * apply Forall_app. split; [done|]. apply Forall_singleton. lia.
      * exists (w + w').
        rewrite value_reverse_snoc, Hrlen, pow_base_S, HvdR, Hw'.
        assert (pow_base base n
                = pow_base base (n - S k) * (base * pow_base base k)) as Hpow.
        { rewrite <- pow_base_S, <- pow_base_add. f_equal. lia. }
        rewrite Hpow in *. lia.
Qed.

(** [subtract] never raises on digits in range: it returns the digits of
    [lhs - rhs] modulo [base ^ n], where [n] is the length of the longer
    operand, on [n] digits. *)
Lemma subtract_spec (lhs rhs : list Z) :
  valid_digits base lhs → valid_digits base rhs →
  let n := (length lhs `max` length rhs)%nat in
  ∃ r, subtract lhs rhs base = Ok r
       ∧ valid_digits base r
       ∧ length r = n
       ∧ digits_value base r
         = (digits_value base lhs - digits_value base rhs) mod pow_base base n.
Proof.
  intros Hl Hr n. unfold subtract. fold n.
  destruct (sub_loop_spec n (Py.pad n rhs) (digits_value base lhs))
    with (todo := n) (k := 0%nat) (lhs := Py.pad n lhs) (result := @nil Z)
    as (result & Hrun & Hlen & Hres & w & Hval);
    try (apply length_pad; lia); try (apply valid_pad; [lia|done]);
    try done; try lia; try (by constructor).
  { exists 0. rewrite Nat.sub_0_r, pow_base_0.
    rewrite drop_ge, take_ge by (rewrite length_pad; lia).
    rewrite value_pad. change (reverse []) with (@nil Z).
    rewrite !value_nil. lia. }
  rewrite length_pad by lia. rewrite Hrun. simpl.
  exists (reverse result). split; [done|].
  assert (valid_digits base (reverse result)) as Hrev by by apply Forall_reverse.
  split; [done|]. split; [by rewrite length_reverse|].
  pose proof (value_bound base (reverse result) Hrev) as Hb.
  rewrite length_reverse, Hlen in Hb.
  rewrite value_pad in Hval.
  replace (digits_value base lhs - digits_value base rhs)
    with (digits_value base (reverse result) + (- w) * pow_base base n) by lia.
  rewrite Z_mod_plus_full. symmetry. by apply Z.mod_small.
Qed.

(** With [lhs >= rhs] the difference is exact. *)
Lemma subtract_ge (lhs rhs : list Z) :
  valid_digits base lhs → valid_digits base rhs →
  digits_value base rhs ≤ digits_value base lhs →
  ∃ r, subtract lhs rhs base = Ok r
       ∧ valid_digits base r
       ∧ length r = (length lhs `max` length rhs)%nat
       ∧ digits_value base r = digits_value base lhs - digits_value base rhs.
Proof.
  intros Hl Hr Hge.
  destruct (subtract_spec lhs rhs Hl Hr) as (r & Hrun & Hv & Hlen & Hval).
  exists r. repeat split; try done.
  rewrite Hval. apply Z.mod_small.
  pose proof (value_bound base lhs Hl). pose proof (value_bound base rhs Hr).
  pose proof (pow_base_le base (length lhs) (length lhs `max` length rhs)
                ltac:(lia) ltac:(lia)).
  lia.
Qed.

End Subtract.

(** ** [multiply] *)

Lemma depth_bound_range (base : Z) (lhs rhs : list Z) :
  (2 * (length lhs `max` length rhs) ≤ depth_bound base lhs rhs
   ≤ 2 * (length lhs `max` length rhs) + 1)%nat.
Proof. unfold depth_bound. case_decide; lia. Qed.

Lemma bind_Ok {A B : Type} (a : A) (f : A → res B) : (Ok a ≫= f) = f a.
Proof. reflexivity. Qed.

Lemma nonempty_length {A : Type} (l : list A) : (1 ≤ length l)%nat → l ≠ [].
Proof. destruct l; simpl; [lia|done]. Qed.

Section Multiply.
Variable base : Z.
Hypothesis base_ge_2 : 2 ≤ base.

(** The base case: two single digits. *)
Lemma multiply_digits (fuel : nat) (a b : Z) :
  0 ≤ a < base → 0 ≤ b < base →
  ∃ r, multiply (S fuel) [a] [b] base = Ok r
       ∧ valid_digits base r ∧ r ≠ []
       ∧ digits_value base r = a * b
       ∧ minimal r.
Proof.
  intros Ha Hb. cbn.
  destruct (decide (a * b < base)) as [Hlt|Hge].
  - exists [a * b]. split; [done|]. split; [|by repeat split].
    apply Forall_cons_2; [nia|]. constructor.
  - rewrite div_ok, mod_ok by lia. cbn.
    pose proof (Z.div_mod (a * b) base ltac:(lia)) as Hdm.
    pose proof (Z.mod_pos_bound (a * b) base ltac:(lia)) as Hm.
    assert (1 ≤ a * b / base < base) as Hq.
    { split.
      - apply Z.div_le_lower_bound; lia.
      - apply Z.div_lt_upper_bound; nia. }
    eexists. split; [done|]. split; [|split; [done|split]].
    + apply Forall_cons_2; [lia|]. apply Forall_cons_2; [lia|]. constructor.
    + unfold digits_value. cbn. lia.
    + cbn. lia.
Qed.

(** After a carrying pre-sum at length 2 or 3, the padded sum splits into
    halves that no longer carry. *)
Lemma split_sum_after_carry (n : nat) (x0 x1 s : list Z) :
  (n = 2 ∨ n = 3)%nat →
  length x0 = ((n + 1) / 2)%nat → length x1 = (n / 2)%nat →
  valid_digits base x0 → valid_digits base x1 →
  valid_digits base s → (length s ≤ n)%nat →
  digits_value base s = digits_value base x0 + digits_value base x1 →
  split_sum base n s < pow_base base ((n + 1) / 2).
Proof.
  intros Hn Hx0 Hx1 Hv0 Hv1 Hvs Hls Hval. unfold split_sum.
  set (m0 := ((n + 1) / 2)%nat) in *.
  set (S := Py.pad n s).
  assert (length S = n) as HS by (apply length_pad; lia).
  assert (valid_digits base S) as HvS by (apply valid_pad; [lia|done]).
  pose proof (value_take_drop base m0 S) as Hsplit.
  unfold S in Hsplit at 1. rewrite value_pad, Hval, HS in Hsplit.
  pose proof (value_bound base x0 Hv0) as B0.
  pose proof (value_bound base x1 Hv1) as B1.
  pose proof (value_bound base (take m0 S) ltac:(by apply Forall_take)) as Bt.
  pose proof (value_bound base (drop m0 S) ltac:(by apply Forall_drop)) as Bd.
  rewrite length_drop, HS in Bd. rewrite Hx0 in B0. rewrite Hx1 in B1.
  set (hi := digits_value base (take m0 S)) in *.
  set (lo := digits_value base (drop m0 S)) in *.
  clearbody hi lo.
  clear Bt.
  destruct Hn as [-> | ->]; subst m0; cbn in *;
    rewrite ?pow_base_S, ?pow_base_0, ?Z.mul_1_r in *.
  - assert (hi ≤ 1) by nia. nia.
  - assert (hi ≤ base) by nia. nia.
Qed.

(** Lengths of the two halves. *)
Lemma halves (n : nat) :
  (2 ≤ n)%nat →
  let m0 := ((n + 1) / 2)%nat in
  let m1 := (n / 2)%nat in
  (m0 + m1 = n ∧ 1 ≤ m1 ∧ m1 ≤ m0 ∧ m0 ≤ m1 + 1 ∧ m0 < n)%nat.
Proof.
  intros Hn m0 m1. subst m0 m1.
  pose proof (Nat.div_mod_eq n 2).
  pose proof (Nat.mod_upper_bound n 2 ltac:(lia)).
  pose proof (Nat.div_mod_eq (n + 1) 2).
  pose proof (Nat.mod_upper_bound (n + 1) 2 ltac:(lia)).
  lia.
Qed.

(** The master specification of [multiply]: with fuel above [depth_bound]
    the call returns, and what it returns is a non-empty vector of digits
    in range denoting the product. *)
Lemma multiply_spec :
  ∀ (fuel : nat) (lhs rhs : list Z),
    valid_digits base lhs → valid_digits base rhs →
    lhs ≠ [] → rhs ≠ [] →
    (depth_bound base lhs rhs < fuel)%nat →
    ∃ r, multiply fuel lhs rhs base = Ok r
         ∧ valid_digits base r ∧ r ≠ []
         ∧ digits_value base r = digits_value base lhs * digits_value base rhs
         ∧ (length lhs = 1%nat → length rhs = 1%nat → minimal r).
Proof.
  induction fuel as [|fuel IH]; intros lhs rhs Hl Hr Hln Hrn Hfuel; [lia|].
  assert (1 ≤ length lhs)%nat as Hll by (destruct lhs; simpl; [done|lia]).
  assert (1 ≤ length rhs)%nat as Hlr by (destruct rhs; simpl; [done|lia]).
  pose proof (depth_bound_range base lhs rhs) as Hdepth.
  destruct (decide ((length lhs `max` length rhs)%nat = 1%nat)) as [Hn1|Hn1].
  - destruct lhs as [|a [|]]; destruct rhs as [|b [|]];
      simpl in Hll, Hlr, Hn1; try lia.
    apply Forall_inv in Hl. apply Forall_inv in Hr.
    destruct (multiply_digits fuel a b Hl Hr) as (r & Hrun & Hv & Hne & Hval & Hmin).
    exists r. split; [done|]. split; [done|]. split; [done|]. split; [|done].
    rewrite Hval. unfold digits_value. simpl. lia.
  - cbn [multiply]. rewrite decide_True by lia.
    set (n := (length lhs `max` length rhs)%nat) in *.
    cbv zeta. rewrite decide_False by done.
    set (m0 := ((n + 1) / 2)%nat). set (m1 := (n / 2)%nat).
    destruct (halves n ltac:(lia)) as (Hm & Hm1 & Hm10 & Hm01 & Hm0n).
    fold m0 m1 in Hm, Hm1, Hm10, Hm01, Hm0n.
    set (L := Py.pad n lhs). set (R := Py.pad n rhs).
    assert (length L = n) as HLlen by (apply length_pad; lia).
    assert (length R = n) as HRlen by (apply length_pad; lia).
    assert (valid_digits base L) as HvL by (apply valid_pad; [lia|done]).
    assert (valid_digits base R) as HvR by (apply valid_pad; [lia|done]).
    set (x0 := take m0 L). set (x1 := drop m0 L).
    set (y0 := take m0 R). set (y1 := drop m0 R).
    assert (length x0 = m0) as Hx0 by (apply length_take_le; lia).
    assert (length y0 = m0) as Hy0 by (apply length_take_le; lia).
    assert (length x1 = m1) as Hx1 by (unfold x1; rewrite length_drop; lia).
    assert (length y1 = m1) as Hy1 by (unfold y1; rewrite length_drop; lia).
    assert (valid_digits base x0) as Hvx0 by by apply Forall_take.
    assert (valid_digits base y0) as Hvy0 by by apply Forall_take.
    assert (valid_digits base x1) as Hvx1 by by apply Forall_drop.
    assert (valid_digits base y1) as Hvy1 by by apply Forall_drop.
    pose proof (value_take_drop base m0 L) as HLsplit.
    pose proof (value_take_drop base m0 R) as HRsplit.
    rewrite HLlen in HLsplit. rewrite HRlen in HRsplit.
    replace (n - m0)%nat with m1 in HLsplit, HRsplit by lia.
    unfold L in HLsplit at 1. unfold R in HRsplit at 1.
    rewrite value_pad in HLsplit, HRsplit.
    fold x0 x1 in HLsplit. fold y0 y1 in HRsplit.
    pose proof (value_bound base x0 Hvx0) as Bx0.
    pose proof (value_bound base x1 Hvx1) as Bx1.
    pose proof (value_bound base y0 Hvy0) as By0.
    pose proof (value_bound base y1 Hvy1) as By1.
    (* p0 = multiply(x0, y0) *)
    destruct (IH x0 y0) as (p0 & Hp0 & Hvp0 & _ & Hvalp0 & _);
      [done | done | apply nonempty_length; lia | apply nonempty_length; lia | |].
    { pose proof (depth_bound_range base x0 y0). lia. }
    rewrite Hp0, bind_Ok.
    (* the pre-sums *)
    destruct (add_spec base base_ge_2 x0 x1 Hvx0 Hvx1)
      as (sx & Hsx & Hvsx & Hvalsx & Hlensx).
    destruct (add_spec base base_ge_2 y0 y1 Hvy0 Hvy1)
      as (sy & Hsy & Hvsy & Hvalsy & Hlensy).
    cbv zeta in Hlensx, Hlensy. rewrite Hx0, Hx1 in Hlensx. rewrite Hy0, Hy1 in Hlensy.
    replace (m0 `max` m1)%nat with m0 in Hlensx, Hlensy by lia.
    rewrite Hsx, bind_Ok, Hsy, bind_Ok.
    (* p1 = multiply(x0 + x1, y0 + y1) *)
    assert (depth_bound base sx sy < fuel)%nat as Hdepth1.
    { pose proof (depth_bound_range base sx sy) as Hd1.
      unfold depth_bound in Hfuel. fold n in Hfuel.
      destruct (decide (may_carry base lhs rhs)) as [Hc|Hnc].
      - destruct (decide (4 ≤ n)%nat) as [Hn4|Hn4]; [lia|].
        destruct (decide ((length sx `max` length sy)%nat = n)) as [Heq|Hne]; [|lia].
        unfold depth_bound. rewrite decide_False; [lia|].
        unfold may_carry. rewrite Heq. fold m0. intros (_ & [Hc1|Hc2]).
        + pose proof (split_sum_after_carry n x0 x1 sx) as Hs. fold m0 m1 in Hs.
          specialize (Hs ltac:(lia) Hx0 Hx1 Hvx0 Hvx1 Hvsx ltac:(lia) Hvalsx). lia.
        + pose proof (split_sum_after_carry n y0 y1 sy) as Hs. fold m0 m1 in Hs.
          specialize (Hs ltac:(lia) Hy0 Hy1 Hvy0 Hvy1 Hvsy ltac:(lia) Hvalsy). lia.
      - assert (¬ (pow_base base m0 ≤ split_sum base n lhs
                   ∨ pow_base base m0 ≤ split_sum base n rhs)) as Hnc'.
        { intros Hc. apply Hnc. unfold may_carry. fold n m0. split; [lia|done]. }
        unfold split_sum in Hnc'. fold m0 L R x0 x1 y0 y1 in Hnc'.
        lia. }
    destruct (IH sx sy) as (p1 & Hp1 & Hvp1 & _ & Hvalp1 & _);
      [done | done | apply nonempty_length; lia | apply nonempty_length; lia | done |].
    rewrite Hp1, bind_Ok.
    (* p2 = multiply(x1, y1) *)
    destruct (IH x1 y1) as (p2 & Hp2 & Hvp2 & _ & Hvalp2 & _);
      [done | done | apply nonempty_length; lia | apply nonempty_length; lia | |].
    { pose proof (depth_bound_range base x1 y1). lia. }
    rewrite Hp2, bind_Ok.
    (* z1 = p1 - (p0 + p2) *)
    destruct (add_spec base base_ge_2 p0 p2 Hvp0 Hvp2)
      as (s & Hs & Hvs & Hvals & _).
    rewrite Hs, bind_Ok.
    destruct (subtract_ge base base_ge_2 p1 s Hvp1 Hvs)
      as (z1 & Hz1 & Hvz1 & _ & Hvalz1); [nia|].
    rewrite Hz1, bind_Ok.
    (* the recombination *)
    set (z0prod := p0 ++ replicate (2 * m1) 0).
    set (z1prod := z1 ++ replicate m1 0).
    assert (valid_digits base z0prod) as Hvz0p.
    { apply Forall_app. split; [done|]. apply Forall_replicate. lia. }
    assert (valid_digits base z1prod) as Hvz1p.
    { apply Forall_app. split; [done|]. apply Forall_replicate. lia. }
    destruct (add_spec base base_ge_2 z0prod z1prod Hvz0p Hvz1p)
      as (t & Ht & Hvt & Hvalt & Hlent).
    rewrite Ht, bind_Ok.
    destruct (add_spec base base_ge_2 t p2 Hvt Hvp2)
      as (r & Hr' & Hvr & Hvalr & Hlenr).
    exists r. split; [done|]. split; [done|]. split; [|split].
    + apply nonempty_length. cbv zeta in Hlent, Hlenr.
      assert (2 ≤ length z0prod)%nat
        by (unfold z0prod; rewrite length_app, length_replicate; lia).
      lia.
    + rewrite Hvalr, Hvalt. unfold z0prod, z1prod.
      rewrite !value_shift, Hvalz1, Hvals, Hvalp0, Hvalp1, Hvalp2.
      rewrite Hvalsx, Hvalsy, HLsplit, HRsplit.
      replace (2 * m1)%nat with (m1 + m1)%nat by lia.
      rewrite pow_base_add. ring.
    + intros H1 H2. lia.
Qed.

End Multiply.

(** ** Fuel only bounds the recursion *)

(** More fuel never changes what a call returns or raises. *)
Lemma multiply_fuel_mono (base : Z) :
  ∀ (fuel : nat) (lhs rhs : list Z) (o : res (list Z)),
    multiply fuel lhs rhs base = o → o ≠ OutOfFuel →
    multiply (S fuel) lhs rhs base = o.
Proof.
  induction fuel as [|fuel IH]; intros lhs rhs o Hrun Ho.
  { simpl in Hrun. congruence. }
  cbn [multiply] in Hrun.
  remember (S fuel) as fuel1 eqn:Hfuel1 in *. clear Hfuel1.
  cbn [multiply]. revert Hrun.
  destruct (decide (0 < length lhs ∧ 0 < length rhs)%nat); [|done].
  cbv zeta. case_decide; [done|].
  repeat match goal with
    | |- (multiply fuel ?a ?b base ≫= _) = _ → _ =>
        let E := fresh "E" in
        destruct (multiply fuel a b base) eqn:E;
        [ rewrite (IH a b _ E) by done
        | rewrite (IH a b _ E) by done
        | intros <-; done ];
        [ rewrite !bind_Ok | done ]
    | |- (?m ≫= _) = _ → _ =>
        let E := fresh "E" in
        destruct m eqn:E; [ rewrite !bind_Ok | done | done ]
    end.
  done.
Qed.

(** ** Minimal length, in terms of the value *)

Lemma minimal_of_value (base : Z) (l : list Z) :
  valid_digits base l →
  ((2 ≤ length l)%nat → pow_base base (length l - 1) ≤ digits_value base l) →
  minimal l.
Proof.
  intros Hl Hv. destruct l as [|d [|e t]]; simpl; try done.
  intros ->. apply Forall_cons_1 in Hl as [_ Ht].
  pose proof (value_bound base (e :: t) Ht) as Hb.
  specialize (Hv ltac:(simpl; lia)).
  rewrite value_cons in Hv. simpl in Hv, Hb.
  rewrite ?Nat.sub_0_r in Hv. lia.
Qed.

Lemma value_of_minimal (base : Z) (l : list Z) :
  valid_digits base l → minimal l → (2 ≤ length l)%nat →
  pow_base base (length l - 1) ≤ digits_value base l.
Proof.
  intros Hl Hm Hlen. destruct l as [|d [|e t]]; simpl in Hlen; try lia.
  simpl in Hm. apply Forall_cons_1 in Hl as [Hd Ht].
  pose proof (value_bound base (e :: t) Ht) as Hb.
  rewrite value_cons. simpl in *. rewrite ?Nat.sub_0_r.
  assert (0 < base) by lia.
  pose proof (pow_base_pos base (S (length t)) ltac:(lia)). nia.
Qed.


(** ** Runs on concrete operands *)

Example multiply_7_8 : multiply 1 [7] [8] 10 = Ok [5; 6].
Proof. reflexivity. Qed.

Example multiply_2_3 : multiply 1 [2] [3] 10 = Ok [6].
Proof. reflexivity. Qed.

Example multiply_1337_1000 :
  multiply 4 [1; 3; 3; 7] [1; 0; 0; 0] 10 = Ok [1; 3; 3; 7; 0; 0; 0].
Proof. vm_compute. reflexivity. Qed.

(** At length 2 the call for [p1] can get operands of length 2 again, and
    the recursion is deeper than the halving of the length suggests. *)
Example multiply_99_99_depth :
  multiply 2 [9; 9] [9; 9] 10 = OutOfFuel
  ∧ multiply 3 [9; 9] [9; 9] 10 = Ok [9; 8; 0; 1].
Proof. split; vm_compute; reflexivity. Qed.

(** A zero base makes the first division raise. *)
Example add_base_0 : add [1] [1] 0 = Raise ZeroDivisionError.
Proof. reflexivity. Qed.

(** ** The properties of the three functions *)

(** C1. For non-empty digit vectors [lhs] and [rhs] with digits in
    [[0, base)] and [base >= 2], [multiply] returns a digit vector whose
    value is the product of the values of [lhs] and [rhs], as soon as the
    recursion may go as deep as twice the longer length plus two. *)
Theorem multiply_correct (base : Z) (lhs rhs : list Z) (fuel : nat) :
  2 ≤ base →
  valid_digits base lhs → valid_digits base rhs →
  lhs ≠ [] → rhs ≠ [] →
  (2 * (length lhs `max` length rhs) + 2 ≤ fuel)%nat →
  ∃ r, multiply fuel lhs rhs base = Ok r
       ∧ digits_value base r = digits_value base lhs * digits_value base rhs.
Proof.
  intros Hb Hl Hr Hln Hrn Hfuel.
  pose proof (depth_bound_range base lhs rhs) as Hd.
  destruct (multiply_spec base Hb fuel lhs rhs Hl Hr Hln Hrn ltac:(lia))
    as (r & Hrun & _ & _ & Hval & _).
  by exists r.
Qed.

Lemma multiply_correct_witness :
  ∃ r, multiply 10 [1; 3; 3; 7] [1; 0; 0; 0] 10 = Ok r
       ∧ digits_value 10 r
         = digits_value 10 [1; 3; 3; 7] * digits_value 10 [1; 0; 0; 0].
Proof.
  apply multiply_correct;
    [lia | solve_valid | solve_valid | done | done | simpl; lia].
Defined.

(** C2. The code does not do what the claim (and the docstring of
    [subtract]) says: [subtract([1], [2], 10)] raises nothing, it returns
    [[9]]. *)
Theorem subtract_1_2_returns : subtract [1] [2] 10 = Ok [9].
Proof. reflexivity. Qed.

(** On digits in range [subtract] returns for every pair of operands; with
    [lhs < rhs] the borrow walk leaves its loop at [j > length] and the
    result is [lhs - rhs + base ^ n]. *)
Lemma subtract_below_wraps (base : Z) (lhs rhs : list Z) :
  2 ≤ base →
  valid_digits base lhs → valid_digits base rhs →
  digits_value base lhs < digits_value base rhs →
  ∃ r, subtract lhs rhs base = Ok r
       ∧ digits_value base r
         = digits_value base lhs - digits_value base rhs
           + pow_base base (length lhs `max` length rhs).
Proof.
  intros Hb Hl Hr Hlt.
  destruct (subtract_spec base Hb lhs rhs Hl Hr) as (r & Hrun & _ & _ & Hval).
  exists r. split; [done|]. rewrite Hval.
  set (n := (length lhs `max` length rhs)%nat).
  pose proof (value_bound base lhs Hl). pose proof (value_bound base rhs Hr).
  pose proof (pow_base_le base (length rhs) n ltac:(lia) ltac:(lia)).
  fold n. rewrite <- (Z_mod_plus_full _ 1).
  rewrite Z.mod_small by lia. lia.
Qed.




(** C4, as the code has it.  [subtract([1,0,0,0], [1], 10)] returns
    [[0,9,9,9]]: the borrow chain across the whole vector is resolved, the
    value is 999, and the result keeps the length of the longer operand. *)
Theorem subtract_1000_1 :
  subtract [1; 0; 0; 0] [1] 10 = Ok [0; 9; 9; 9]
  ∧ digits_value 10 [0; 9; 9; 9] = 999.
Proof. split; reflexivity. Qed.

(** C4 fails as stated: the result is not [[9,9,9]]. *)
Lemma subtract_result_not_trimmed :
  subtract [1; 0; 0; 0] [1] 10 ≠ Ok [9; 9; 9].
Proof. discriminate. Qed.

(** C5, as the code has it.  On digits in range [add] returns the digits of
    [lhs + rhs]; the result has no leading zero when neither operand has one
    ([add] prepends a digit only for a non-zero final carry), and
    [add([9,9,9], [1], 10) = [1,0,0,0]]. *)
Theorem add_correct (base : Z) (lhs rhs : list Z) :
  2 ≤ base →
  valid_digits base lhs → valid_digits base rhs →
  (∃ r, add lhs rhs base = Ok r
        ∧ digits_value base r = digits_value base lhs + digits_value base rhs
        ∧ (minimal lhs → minimal rhs → minimal r))
  ∧ add [9; 9; 9] [1] 10 = Ok [1; 0; 0; 0].
Proof.
  intros Hb Hl Hr. split; [|reflexivity].
  destruct (add_spec base Hb lhs rhs Hl Hr) as (r & Hrun & Hv & Hval & Hlen).
  exists r. split; [done|]. split; [done|].
  intros Hml Hmr. apply (minimal_of_value base); [done|].
  intros Hr2. cbv zeta in Hlen.
  destruct Hlen as [Hlen | [Hlen Hbig]].
  - rewrite Hlen, Hval.
    pose proof (value_bound base lhs Hl). pose proof (value_bound base rhs Hr).
    destruct (decide (length rhs ≤ length lhs)%nat).
    + pose proof (value_of_minimal base lhs Hl Hml ltac:(lia)).
      replace (length lhs `max` length rhs)%nat with (length lhs) by lia. lia.
    + pose proof (value_of_minimal base rhs Hr Hmr ltac:(lia)).
      replace (length lhs `max` length rhs)%nat with (length rhs) by lia. lia.
  - rewrite Hlen. simpl. by rewrite Nat.sub_0_r.
Qed.

Lemma add_correct_witness :
  (∃ r, add [9; 9; 9] [1] 10 = Ok r
        ∧ digits_value 10 r = digits_value 10 [9; 9; 9] + digits_value 10 [1]
        ∧ (minimal [9; 9; 9] → minimal [1] → minimal r))
  ∧ add [9; 9; 9] [1] 10 = Ok [1; 0; 0; 0].
Proof. apply add_correct; [lia | solve_valid | solve_valid]. Defined.

(** C5 fails as stated: a leading zero of an operand stays in the sum,
    [add([0, 1], [1], 10) = [0, 2]]. *)
Lemma add_keeps_leading_zero :
  valid_digits 10 [0; 1] ∧ valid_digits 10 [1]
  ∧ add [0; 1] [1] 10 = Ok [0; 2] ∧ ¬ minimal [0; 2].
Proof.
  split; [solve_valid|]. split; [solve_valid|].
  split; [reflexivity|]. simpl. tauto.
Qed.

(** C6. For digit vectors [x] and [y] with digits in range and [x >= y],
    [add(subtract(x, y, b), y, b)] denotes the same integer as [x]. *)
Theorem subtract_add_inverse (base : Z) (x y : list Z) :
  2 ≤ base →
  valid_digits base x → valid_digits base y →
  digits_value base y ≤ digits_value base x →
  ∃ d r, subtract x y base = Ok d
         ∧ add d y base = Ok r
         ∧ digits_value base r = digits_value base x.
Proof.
  intros Hb Hx Hy Hge.
  destruct (subtract_ge base Hb x y Hx Hy Hge) as (d & Hd & Hvd & _ & Hvald).
  destruct (add_spec base Hb d y Hvd Hy) as (r & Hr & _ & Hvalr & _).
  exists d, r. split; [done|]. split; [done|]. lia.
Qed.

Lemma subtract_add_inverse_witness :
  ∃ d r, subtract [1; 0; 0; 0] [1] 10 = Ok d
         ∧ add d [1] 10 = Ok r
         ∧ digits_value 10 r = digits_value 10 [1; 0; 0; 0].
Proof.
  apply subtract_add_inverse;
    [lia | solve_valid | solve_valid | vm_compute; discriminate].
Defined.

(** C7. For a non-empty digit vector [x] with digits in range,
    [multiply(x, [1], b)] denotes the same integer as [x]. *)
Theorem multiply_one (base : Z) (x : list Z) (fuel : nat) :
  2 ≤ base →
  valid_digits base x → x ≠ [] →
  (2 * length x + 2 ≤ fuel)%nat →
  ∃ r, multiply fuel x [1] base = Ok r
       ∧ digits_value base r = digits_value base x.
Proof.
  intros Hb Hx Hne Hfuel.
  assert (valid_digits base [1]) as H1 by solve_valid.
  assert (1 ≤ length x)%nat by (destruct x; simpl; [done|lia]).
  pose proof (depth_bound_range base x [1]) as Hd. simpl in Hd.
  destruct (multiply_spec base Hb fuel x [1] Hx H1 Hne ltac:(done) ltac:(lia))
    as (r & Hrun & _ & _ & Hval & _).
  exists r. split; [done|]. rewrite Hval.
  unfold digits_value at 2. simpl. lia.
Qed.

Lemma multiply_one_witness :
  ∃ r, multiply 10 [1; 3; 3; 7] [1] 10 = Ok r
       ∧ digits_value 10 r = digits_value 10 [1; 3; 3; 7].
Proof.
  apply multiply_one; [lia | solve_valid | done | simpl; lia].
Defined.

(** C8. [multiply] raises [AssertionError], the failure of its opening
    [assert], whenever one of the operands is empty, whatever the other
    operand and the base are. *)
Theorem multiply_empty (fuel : nat) (lhs rhs : list Z) (base : Z) :
  lhs = [] ∨ rhs = [] →
  multiply (S fuel) lhs rhs base = Raise AssertionError.
Proof.
  intros Hempty. cbn [multiply].
  rewrite decide_False; [done|].
  intros [H1 H2]. destruct Hempty as [-> | ->]; simpl in *; lia.
Qed.

Lemma multiply_empty_witness :
  multiply 1 [] [1; 2] 10 = Raise AssertionError.
Proof. apply multiply_empty. left. reflexivity. Defined.

(** C9. With digits in [[0, base)] in both operands and [base >= 2], every
    digit of what [add], [subtract] (for [lhs >= rhs]) and [multiply] (for
    non-empty operands) return lies in [[0, base)]. *)
Theorem digit_range_preserved (base : Z) (lhs rhs : list Z) :
  2 ≤ base →
  valid_digits base lhs → valid_digits base rhs →
  (∃ r, add lhs rhs base = Ok r ∧ valid_digits base r)
  ∧ (digits_value base rhs ≤ digits_value base lhs →
     ∃ r, subtract lhs rhs base = Ok r ∧ valid_digits base r)
  ∧ (lhs ≠ [] → rhs ≠ [] →
     ∀ fuel, (2 * (length lhs `max` length rhs) + 2 ≤ fuel)%nat →
     ∃ r, multiply fuel lhs rhs base = Ok r ∧ valid_digits base r).
Proof.
  intros Hb Hl Hr. split; [|split].
  - destruct (add_spec base Hb lhs rhs Hl Hr) as (r & Hrun & Hv & _).
    by exists r.
  - intros _.
    destruct (subtract_spec base Hb lhs rhs Hl Hr) as (r & Hrun & Hv & _).
    by exists r.
  - intros Hln Hrn fuel Hfuel.
    pose proof (depth_bound_range base lhs rhs) as Hd.
    destruct (multiply_spec base Hb fuel lhs rhs Hl Hr Hln Hrn ltac:(lia))
      as (r & Hrun & Hv & _).
    by exists r.
Qed.

Lemma digit_range_preserved_witness :
  (∃ r, add [9; 9] [9; 9] 10 = Ok r ∧ valid_digits 10 r)
  ∧ (digits_value 10 [9; 9] ≤ digits_value 10 [9; 9] →
     ∃ r, subtract [9; 9] [9; 9] 10 = Ok r ∧ valid_digits 10 r)
  ∧ ([9; 9] ≠ [] → [9; 9] ≠ [] →
     ∀ fuel, (6 ≤ fuel)%nat →
     ∃ r, multiply fuel [9; 9] [9; 9] 10 = Ok r ∧ valid_digits 10 r).
Proof.
  apply (digit_range_preserved 10 [9; 9] [9; 9]);
    [lia | solve_valid | solve_valid].
Defined.

(** C10. [multiply] terminates on non-empty operands with digits in range:
    a recursion depth of twice the longer length plus two is enough, although
    a pre-sum may be as long as the operands it comes from (at length 2,
    [add([9], [9], 10)] has two digits; at length 3, [add([9, 9], [9], 10)]
    has three), so that the length alone does not decrease. *)
Theorem multiply_terminates (base : Z) (lhs rhs : list Z) :
  2 ≤ base →
  valid_digits base lhs → valid_digits base rhs →
  lhs ≠ [] → rhs ≠ [] →
  (∀ fuel, (2 * (length lhs `max` length rhs) + 2 ≤ fuel)%nat →
           ∃ r, multiply fuel lhs rhs base = Ok r)
  ∧ add [9] [9] 10 = Ok [1; 8]
  ∧ add [9; 9] [9] 10 = Ok [1; 0; 8].
Proof.
  intros Hb Hl Hr Hln Hrn. split; [|split; reflexivity].
  intros fuel Hfuel.
  pose proof (depth_bound_range base lhs rhs) as Hd.
  destruct (multiply_spec base Hb fuel lhs rhs Hl Hr Hln Hrn ltac:(lia))
    as (r & Hrun & _).
  by exists r.
Qed.

Lemma multiply_terminates_witness :
  (∀ fuel, (8 ≤ fuel)%nat →
           ∃ r, multiply fuel [9; 9; 9] [9; 9; 9] 10 = Ok r)
  ∧ add [9] [9] 10 = Ok [1; 8]
  ∧ add [9; 9] [9] 10 = Ok [1; 0; 8].
Proof.
  apply (multiply_terminates 10 [9; 9; 9] [9; 9; 9]);
    [lia | solve_valid | solve_valid | done | done].
Defined.

(** ** Further properties of [add] *)

Lemma getitem_neg_cases (l : list Z) (i : nat) :
  (∃ x, Py.getitem_neg l i = Ok x) ∨ Py.getitem_neg l i = Raise IndexError.
Proof.
  unfold Py.getitem_neg, Py.getitem.
  destruct (Py.neg_index l i) as [k|]; [|by right].
  destruct (l !! k); [left; eauto | by right].
Qed.

Lemma add_loop_comm (todo i : nat) (lhs rhs : list Z) (base carry : Z)
    (result : list Z) :
  add_loop todo i lhs rhs base carry result
  = add_loop todo i rhs lhs base carry result.
Proof.
  revert i carry result.
  induction todo as [|todo IH]; intros i carry result; [done|].
  cbn [add_loop].
  destruct (getitem_neg_cases lhs i) as [[l ->] | ->];
    destruct (getitem_neg_cases rhs i) as [[r ->] | ->];
    rewrite ?bind_Ok; try done.
  rewrite (Z.add_comm r l).
  destruct (Py.mod_ (l + r + carry) base); [|done|done].
  rewrite !bind_Ok.
  destruct (Py.div (l + r + carry) base); [|done|done].
  rewrite !bind_Ok. apply IH.
Qed.

Lemma add_symmetric (lhs rhs : list Z) (base : Z) :
  add lhs rhs base = add rhs lhs base.
Proof.
  unfold add. rewrite (Nat.max_comm (length rhs)).
  rewrite !length_pad by lia.
  by rewrite add_loop_comm.
Qed.

(** X1. [add(lhs, rhs, base)] and [add(rhs, lhs, base)] are the same, for
    all operands and bases, results and exceptions alike. *)
Theorem add_commutative (lhs rhs : list Z) (base : Z) :
  add lhs rhs base = add rhs lhs base.
Proof. apply add_symmetric. Qed.

(** X2. On digits in range [add] returns digits in range that denote the
    sum; the result has as many digits as the longer operand, and one more
    exactly when the sum does not fit in that many digits. *)
Theorem add_length (base : Z) (lhs rhs : list Z) :
  2 ≤ base →
  valid_digits base lhs → valid_digits base rhs →
  ∃ r, add lhs rhs base = Ok r
       ∧ valid_digits base r
       ∧ digits_value base r = digits_value base lhs + digits_value base rhs
       ∧ length r
         = let n := (length lhs `max` length rhs)%nat in
           if decide (pow_base base n
                      ≤ digits_value base lhs + digits_value base rhs)
           then S n else n.
Proof.
  intros Hb Hl Hr.
  destruct (add_spec base Hb lhs rhs Hl Hr) as (r & Hrun & Hv & Hval & Hlen).
  exists r. split; [done|]. split; [done|]. split; [done|].
  cbv zeta in *. pose proof (value_bound base r Hv) as Hbound.
  case_decide; destruct Hlen as [Hlen | [Hlen Hbig]]; try done.
  - rewrite Hlen in Hbound. lia.
  - lia.
Qed.

Lemma add_length_witness :
  ∃ r, add [9; 9; 9] [1] 10 = Ok r
       ∧ valid_digits 10 r
       ∧ digits_value 10 r = digits_value 10 [9; 9; 9] + digits_value 10 [1]
       ∧ length r
         = let n := 3%nat in
           if decide (pow_base 10 n
                      ≤ digits_value 10 [9; 9; 9] + digits_value 10 [1])
           then S n else n.
Proof.
  apply (add_length 10 [9; 9; 9] [1]); [lia | solve_valid | solve_valid].
Defined.

(** The loop of [add] returns whenever the base is not zero, whatever the
    digits are. *)
Lemma add_loop_total (base : Z) (L R : list Z) (n : nat) :
  base ≠ 0 → length L = n → length R = n →
  ∀ (todo k : nat) (carry : Z) (result : list Z),
    (k + todo = n)%nat →
    ∃ out, add_loop todo (S k) L R base carry result = Ok out.
Proof.
  intros Hb HL HR todo.
  induction todo as [|todo IH]; intros k carry result Hk; [by eexists|].
  destruct (lookup_lt_is_Some_2 L (n - S k)%nat) as [l Hl]; [lia|].
  destruct (lookup_lt_is_Some_2 R (n - S k)%nat) as [r Hr]; [lia|].
  cbn [add_loop].
  rewrite (getitem_neg_ok L (S k) l), (getitem_neg_ok R (S k) r), !bind_Ok
    by (rewrite ?HL, ?HR; done || lia).
  rewrite mod_ok, div_ok, !bind_Ok by done.
  apply IH. lia.
Qed.

Lemma add_outcome (lhs rhs : list Z) (base : Z) :
  if decide (base = 0 ∧ (lhs ≠ [] ∨ rhs ≠ []))
  then add lhs rhs base = Raise ZeroDivisionError
  else ∃ r, add lhs rhs base = Ok r.
Proof.
  unfold add.
  remember (length lhs `max` length rhs)%nat as n eqn:Hn.
  assert (length (Py.pad n lhs) = n) as HL by (apply length_pad; lia).
  assert (length (Py.pad n rhs) = n) as HR by (apply length_pad; lia).
  rewrite HL.
  case_decide as Hcase.
  - destruct Hcase as [-> Hne].
    assert (1 ≤ n)%nat as Hn1.
    { destruct Hne as [Hne|Hne]; [destruct lhs | destruct rhs];
        simpl in *; try done; lia. }
    destruct n as [|n']; [lia|].
    destruct (lookup_lt_is_Some_2 (Py.pad (S n') lhs) n') as [l Hl]; [lia|].
    destruct (lookup_lt_is_Some_2 (Py.pad (S n') rhs) n') as [r Hr]; [lia|].
    assert (Py.getitem_neg (Py.pad (S n') lhs) 1 = Ok l) as Hgl.
    { apply getitem_neg_ok; [lia|].
      rewrite HL. by replace (S n' - 1)%nat with n' by lia. }
    assert (Py.getitem_neg (Py.pad (S n') rhs) 1 = Ok r) as Hgr.
    { apply getitem_neg_ok; [lia|].
      rewrite HR. by replace (S n' - 1)%nat with n' by lia. }
    cbn [add_loop]. by rewrite Hgl, Hgr, !bind_Ok.
  - destruct (decide (base = 0)) as [->|Hb].
    + assert (lhs = [] ∧ rhs = []) as [-> ->].
      { split; [destruct (decide (lhs = [])) | destruct (decide (rhs = []))];
          try done; exfalso; apply Hcase; tauto. }
      simpl in Hn. subst n. by eexists.
    + destruct (add_loop_total base (Py.pad n lhs) (Py.pad n rhs) n Hb HL HR
                  n 0%nat 0 [] ltac:(lia)) as [[carry result] Hrun].
      rewrite Hrun, bind_Ok. by eexists.
Qed.

(** X3. [add] raises only [ZeroDivisionError], and exactly when the base is
    zero and an operand is non-empty; in every other case it returns, also
    on digits out of range. *)
Theorem add_raises_iff (lhs rhs : list Z) (base : Z) :
  if decide (base = 0 ∧ (lhs ≠ [] ∨ rhs ≠ []))
  then add lhs rhs base = Raise ZeroDivisionError
  else ∃ r, add lhs rhs base = Ok r.
Proof. apply add_outcome. Qed.

Lemma add_cases (lhs rhs : list Z) (base : Z) :
  (∃ r, add lhs rhs base = Ok r) ∨ add lhs rhs base = Raise ZeroDivisionError.
Proof.
  pose proof (add_outcome lhs rhs base) as H.
  case_decide; [by right | by left].
Qed.

(** ** Further properties of [subtract] *)

(** X4. On digits in range [subtract] never raises: it returns exactly as
    many digits as the longer operand has, all in range, and they denote
    [lhs - rhs] modulo [base ^ n]; so a result for [lhs < rhs] is
    [lhs - rhs + base ^ n]. *)
Theorem subtract_modular (base : Z) (lhs rhs : list Z) :
  2 ≤ base →
  valid_digits base lhs → valid_digits base rhs →
  ∃ r, subtract lhs rhs base = Ok r
       ∧ valid_digits base r
       ∧ length r = (length lhs `max` length rhs)%nat
       ∧ digits_value base r
         = (digits_value base lhs - digits_value base rhs)
           mod pow_base base (length lhs `max` length rhs).
Proof. intros Hb Hl Hr. exact (subtract_spec base Hb lhs rhs Hl Hr). Qed.

Lemma subtract_modular_witness :
  ∃ r, subtract [1] [2] 10 = Ok r
       ∧ valid_digits 10 r
       ∧ length r = 1%nat
       ∧ digits_value 10 r
         = (digits_value 10 [1] - digits_value 10 [2]) mod pow_base 10 1.
Proof.
  apply (subtract_modular 10 [1] [2]); [lia | solve_valid | solve_valid].
Defined.

(** Two vectors of digits in range with the same length and the same value
    are the same vector. *)
Lemma digits_value_inj (base : Z) (l1 l2 : list Z) :
  0 < base →
  valid_digits base l1 → valid_digits base l2 →
  length l1 = length l2 →
  digits_value base l1 = digits_value base l2 →
  l1 = l2.
Proof.
  intros Hb. revert l2.
  induction l1 as [|d1 l1 IH]; intros [|d2 l2] H1 H2 Hlen Hval;
    simpl in Hlen; try done.
  apply Forall_cons_1 in H1 as [Hd1 H1].
  apply Forall_cons_1 in H2 as [Hd2 H2].
  rewrite !value_cons in Hval.
  assert (length l1 = length l2) as Hlen' by lia.
  rewrite Hlen' in Hval.
  pose proof (value_bound base l1 H1) as B1.
  pose proof (value_bound base l2 H2) as B2.
  rewrite Hlen' in B1.
  pose proof (pow_base_pos base (length l2) Hb) as Hp.
  assert (d1 = d2) as -> by nia.
  f_equal. apply IH; try done. lia.
Qed.

(** X5. For digits in range, [x >= y] and [y] no longer than [x],
    [add(subtract(x, y, b), y, b)] returns [x] itself, digit for digit. *)
Theorem subtract_add_roundtrip (base : Z) (x y : list Z) :
  2 ≤ base →
  valid_digits base x → valid_digits base y →
  (length y ≤ length x)%nat →
  digits_value base y ≤ digits_value base x →
  ∃ d, subtract x y base = Ok d ∧ add d y base = Ok x.
Proof.
  intros Hb Hx Hy Hlen Hge.
  destruct (subtract_ge base Hb x y Hx Hy Hge) as (d & Hd & Hvd & Hld & Hvald).
  destruct (add_spec base Hb d y Hvd Hy) as (r & Hr & Hvr & Hvalr & Hlr).
  exists d. split; [done|]. rewrite Hr. f_equal.
  pose proof (value_bound base x Hx) as Bx.
  cbv zeta in Hlr. rewrite Hld in Hlr.
  replace ((length x `max` length y) `max` length y)%nat
    with (length x) in Hlr by lia.
  apply (digits_value_inj base); try done; lia.
Qed.

Lemma subtract_add_roundtrip_witness :
  ∃ d, subtract [1; 0; 0; 0] [1] 10 = Ok d ∧ add d [1] 10 = Ok [1; 0; 0; 0].
Proof.
  apply subtract_add_roundtrip;
    [lia | solve_valid | solve_valid | simpl; lia | vm_compute; discriminate].
Defined.

(** X6. For digits in range, [subtract(add(x, y, b), y, b)] returns [x]
    padded with leading zeros to the length of the sum. *)
Theorem add_subtract_roundtrip (base : Z) (x y : list Z) :
  2 ≤ base →
  valid_digits base x → valid_digits base y →
  ∃ s, add x y base = Ok s
       ∧ subtract s y base = Ok (Py.pad (length s) x).
Proof.
  intros Hb Hx Hy.
  destruct (add_spec base Hb x y Hx Hy) as (s & Hs & Hvs & Hvals & Hls).
  pose proof (value_bound base y Hy) as By.
  pose proof (value_bound base x Hx) as Bx.
  destruct (subtract_ge base Hb s y Hvs Hy ltac:(lia))
    as (d & Hd & Hvd & Hld & Hvald).
  exists s. split; [done|]. rewrite Hd. f_equal.
  cbv zeta in Hls.
  assert (length x ≤ length s ∧ length y ≤ length s)%nat as [Hxs Hys] by lia.
  apply (digits_value_inj base); try done; try lia.
  - apply valid_pad; [lia|done].
  - rewrite length_pad by done. lia.
  - rewrite value_pad. lia.
Qed.

Lemma add_subtract_roundtrip_witness :
  ∃ s, add [9; 9] [1] 10 = Ok s
       ∧ subtract s [1] 10 = Ok (Py.pad (length s) [9; 9]).
Proof.
  apply add_subtract_roundtrip; [lia | solve_valid | solve_valid].
Defined.

(** ** Further properties of [multiply] *)

Lemma getitem_cases (l : list Z) (i : nat) :
  (∃ x, Py.getitem l i = Ok x) ∨ Py.getitem l i = Raise IndexError.
Proof. unfold Py.getitem. destruct (l !! i); [left; eauto | by right]. Qed.

Lemma multiply_symmetric (base : Z) :
  ∀ (fuel : nat) (lhs rhs : list Z),
    multiply fuel lhs rhs base = multiply fuel rhs lhs base.
Proof.
  induction fuel as [|fuel IH]; intros lhs rhs; [done|].
  cbn [multiply]. rewrite (Nat.max_comm (length rhs)).
  set (n := (length lhs `max` length rhs)%nat).
  destruct (decide (0 < length lhs ∧ 0 < length rhs)%nat) as [Hne|Hne];
    destruct (decide (0 < length rhs ∧ 0 < length lhs)%nat) as [Hne'|Hne'];
    try done; try (exfalso; tauto).
  cbv zeta. case_decide.
  - destruct (getitem_cases (Py.pad n lhs) 0) as [[a ->] | ->];
      destruct (getitem_cases (Py.pad n rhs) 0) as [[b ->] | ->];
      rewrite ?bind_Ok; try done.
    by rewrite (Z.mul_comm b a).
  - set (m0 := ((n + 1) / 2)%nat).
    set (x0 := take m0 (Py.pad n lhs)). set (x1 := drop m0 (Py.pad n lhs)).
    set (y0 := take m0 (Py.pad n rhs)). set (y1 := drop m0 (Py.pad n rhs)).
    rewrite (IH y0 x0), (IH y1 x1).
    destruct (multiply fuel x0 y0 base) as [p0| |]; [|done|done].
    rewrite !bind_Ok.
    destruct (add_cases x0 x1 base) as [[sx ->] | ->];
      destruct (add_cases y0 y1 base) as [[sy ->] | ->];
      rewrite ?bind_Ok; try done.
    by rewrite (IH sy sx).
Qed.

(** X7. [multiply(lhs, rhs, base)] and [multiply(rhs, lhs, base)] are the
    same, for all operands and bases, results and exceptions alike. *)
Theorem multiply_commutative (fuel : nat) (lhs rhs : list Z) (base : Z) :
  multiply fuel lhs rhs base = multiply fuel rhs lhs base.
Proof. apply multiply_symmetric. Qed.

(** ** PermutationGenerator.py: what the generators yield *)

Section Permutations.
Context {A : Type}.
Implicit Types (elems soFar p q : list A).

Import PermutationGenerator.

Lemma yield_each_Ok (idx : list nat) (body : nat → res (list (list A)))
    (g : nat → list (list A)) :
  (∀ i, i ∈ idx → body i = Ok (g i)) →
  yield_each idx body = Ok (idx ≫= g).
Proof.
  induction idx as [|i idx IH]; intros Hbody; [done|].
  cbn [yield_each].
  rewrite (Hbody i) by apply list_elem_of_here. rewrite bind_Ok.
  rewrite IH by (intros j Hj; apply Hbody; by apply list_elem_of_further).
  by rewrite bind_Ok.
Qed.

Lemma fmap_bind_out {B C D : Type} (f : C → D) (g : B → list C) (l : list B) :
  f <$> (l ≫= g) = l ≫= (fun x => f <$> g x).
Proof.
  induction l as [|x l IH]; [done|].
  rewrite !bind_cons, fmap_app. by f_equal.
Qed.

(** The generator yields the arrangements of [elems], each prefixed by
    [soFar]. *)
Lemma recPermutations_arrangements :
  ∀ (fuel : nat) elems soFar,
    (length elems < fuel)%nat →
    recPermutations fuel elems soFar
    = Ok ((soFar ++.) <$> arrangements (length elems) elems).
Proof.
  induction fuel as [|fuel IH]; intros elems soFar Hfuel; [lia|].
  cbn [recPermutations]. case_decide as Hlen.
  - rewrite Hlen. simpl. by rewrite app_nil_r.
  - destruct (length elems) as [|n] eqn:Hn; [done|].
    cbn [arrangements]. rewrite Hn.
    erewrite yield_each_Ok; [f_equal|].
    + rewrite fmap_bind_out. reflexivity.
    + intros i Hi. apply elem_of_seq in Hi.
      destruct (lookup_lt_is_Some_2 elems i) as [x Hx]; [lia|].
      rewrite Hx. simpl.
      replace (i + 1)%nat with (S i) by lia.
      rewrite <- delete_take_drop.
      assert (length (delete i elems) = n) as Hdel.
      { rewrite length_delete by eauto. lia. }
      rewrite IH by lia. rewrite Hdel. f_equal.
      rewrite <- list_fmap_compose. apply list_fmap_ext.
      intros _ q _. simpl. by rewrite <- app_assoc.
Qed.

Lemma bind_length_const {B C : Type} (g : B → list C) (l : list B) (c : nat) :
  (∀ x, x ∈ l → length (g x) = c) →
  length (l ≫= g) = (length l * c)%nat.
Proof.
  induction l as [|x l IH]; intros Hg; [done|].
  rewrite bind_cons, length_app, (Hg x) by apply list_elem_of_here.
  rewrite IH by (intros y Hy; apply Hg; by apply list_elem_of_further).
  simpl. lia.
Qed.

Lemma NoDup_bind_inv {B C : Type} (g : B → list C) (l : list B) (i j : B)
    (y : C) :
  NoDup (l ≫= g) → i ∈ l → j ∈ l → i ≠ j → y ∈ g i → y ∈ g j → False.
Proof.
  induction l as [|a l IH]; intros Hnd Hi Hj Hij Hyi Hyj.
  { by apply elem_of_nil in Hi. }
  rewrite bind_cons in Hnd. apply list.NoDup_app in Hnd as (_ & Hdisj & Hnd).
  apply elem_of_cons in Hi as [->|Hi]; apply elem_of_cons in Hj as [->|Hj].
  - done.
  - apply (Hdisj y Hyi). apply list_elem_of_bind. eauto.
  - apply (Hdisj y Hyj). apply list_elem_of_bind. eauto.
  - by apply IH.
Qed.

Lemma arrangements_length (n : nat) elems :
  length elems = n → length (arrangements n elems) = fact n.
Proof.
  revert elems. induction n as [|n IH]; intros elems Hlen; [done|].
  cbn [arrangements].
  rewrite (bind_length_const _ _ (fact n)).
  - rewrite length_seq, Hlen. simpl. lia.
  - intros i Hi. apply elem_of_seq in Hi.
    destruct (lookup_lt_is_Some_2 elems i) as [x Hx]; [lia|].
    rewrite Hx, length_fmap. apply IH.
    rewrite length_delete by eauto. lia.
Qed.

Lemma arrangements_elem (n : nat) elems q :
  length elems = n → q ∈ arrangements n elems ↔ q ≡ₚ elems.
Proof.
  revert elems q. induction n as [|n IH]; intros elems q Hlen.
  { destruct elems; [|done]. simpl.
    rewrite list_elem_of_singleton, Permutation_nil_r. done. }
  cbn [arrangements]. rewrite list_elem_of_bind. split.
  - intros (i & Hq & Hi). apply elem_of_seq in Hi.
    destruct (lookup_lt_is_Some_2 elems i) as [x Hx]; [lia|].
    rewrite Hx in Hq. apply list_elem_of_fmap in Hq as (q' & -> & Hq').
    apply IH in Hq'; [|rewrite length_delete by eauto; lia].
    rewrite Hq'. symmetry. by apply delete_Permutation.
  - intros Hperm.
    destruct q as [|x q'].
    { apply Permutation_nil_l in Hperm. by subst. }
    assert (x ∈ elems) as Hx by (rewrite <- Hperm; apply list_elem_of_here).
    apply list_elem_of_lookup in Hx as [i Hi].
    exists i. split.
    + rewrite Hi. apply list_elem_of_fmap. exists q'. split; [done|].
      apply IH.
      * rewrite length_delete by eauto. lia.
      * apply (inj (x ::.)). rewrite Hperm. by apply delete_Permutation.
    + apply elem_of_seq. apply lookup_lt_Some in Hi. lia.
Qed.

Lemma arrangements_NoDup (n : nat) elems :
  length elems = n → NoDup elems → NoDup (arrangements n elems).
Proof.
  revert elems. induction n as [|n IH]; intros elems Hlen Hnd.
  { apply NoDup_singleton. }
  cbn [arrangements]. apply NoDup_bind.
  - intros i j y Hi Hj Hyi Hyj.
    apply elem_of_seq in Hi. apply elem_of_seq in Hj.
    destruct (lookup_lt_is_Some_2 elems i) as [a Ha]; [lia|].
    destruct (lookup_lt_is_Some_2 elems j) as [b Hb]; [lia|].
    rewrite Ha in Hyi. rewrite Hb in Hyj.
    apply list_elem_of_fmap in Hyi as (q1 & -> & _).
    apply list_elem_of_fmap in Hyj as (q2 & [= -> _] & _).
    by eapply NoDup_lookup.
  - intros i Hi. apply elem_of_seq in Hi.
    destruct (lookup_lt_is_Some_2 elems i) as [a Ha]; [lia|].
    rewrite Ha. apply (NoDup_fmap_2 _).
    apply IH.
    + rewrite length_delete by eauto. lia.
    + eapply sublist_NoDup; [done|apply sublist_delete].
  - apply NoDup_seq.
Qed.

Lemma arrangements_NoDup_inv (n : nat) elems :
  length elems = n → NoDup (arrangements n elems) → NoDup elems.
Proof.
  intros Hlen Hnd. destruct n as [|n].
  { destruct elems; [constructor|done]. }
  apply NoDup_alt. intros i j x Hi Hj.
  destruct (decide (i = j)) as [|Hij]; [done|]. exfalso.
  cbn [arrangements] in Hnd.
  pose proof (lookup_lt_Some _ _ _ Hi). pose proof (lookup_lt_Some _ _ _ Hj).
  apply (NoDup_bind_inv _ _ i j (x :: delete i elems) Hnd);
    try (apply elem_of_seq; lia); try done.
  - rewrite Hi. apply list_elem_of_fmap_2, arrangements_elem; [|done].
    rewrite length_delete by eauto. lia.
  - rewrite Hj. apply list_elem_of_fmap_2, arrangements_elem.
    + rewrite length_delete by eauto. lia.
    + apply (inj (x ::.)).
      rewrite <- (delete_Permutation elems i x Hi).
      by apply delete_Permutation.
Qed.

Lemma arrangements_head (n : nat) elems :
  length elems = n → head (arrangements n elems) = Some elems.
Proof.
  revert elems. induction n as [|n IH]; intros elems Hlen.
  { by destruct elems. }
  destruct elems as [|x t]; [done|]. simpl in Hlen.
  cbn [arrangements length]. rewrite <- cons_seq, bind_cons. simpl.
  specialize (IH t ltac:(lia)).
  destruct (arrangements n t) as [|q qs]; simpl in *; congruence.
Qed.

End Permutations.

Lemma permutations_arrangements {A : Type} (fuel : nat) (elems : list A) :
  (length elems < fuel)%nat →
  PermutationGenerator.permutations fuel elems
  = Ok (PermutationGenerator.arrangements (length elems) elems).
Proof.
  intros Hfuel. unfold PermutationGenerator.permutations.
  rewrite recPermutations_arrangements, bind_Ok by done.
  f_equal. rewrite <- (list_fmap_id (PermutationGenerator.arrangements _ _)) at 2.
  by apply list_fmap_ext.
Qed.

(** X8. [permutations(elems)] yields exactly the permutations of [elems]:
    every list it yields is a rearrangement of [elems], and every
    rearrangement of [elems] is yielded. *)
Theorem permutations_exactly {A : Type} (fuel : nat) (elems : list A) :
  (length elems < fuel)%nat →
  ∃ ps, PermutationGenerator.permutations fuel elems = Ok ps
        ∧ ∀ p, p ∈ ps ↔ p ≡ₚ elems.
Proof.
  intros Hfuel. eexists. split; [by apply permutations_arrangements|].
  intros p. by apply arrangements_elem.
Qed.

Lemma permutations_exactly_witness :
  ∃ ps, PermutationGenerator.permutations 4 [1; 2; 3] = Ok ps
        ∧ ∀ p, p ∈ ps ↔ p ≡ₚ [1; 2; 3].
Proof. apply (permutations_exactly 4 [1; 2; 3]). simpl. lia. Defined.

(** X9. [permutations(elems)] yields [len(elems)!] lists. *)
Theorem permutations_count {A : Type} (fuel : nat) (elems : list A) :
  (length elems < fuel)%nat →
  ∃ ps, PermutationGenerator.permutations fuel elems = Ok ps
        ∧ length ps = fact (length elems).
Proof.
  intros Hfuel. eexists. split; [by apply permutations_arrangements|].
  by apply arrangements_length.
Qed.

Lemma permutations_count_witness :
  ∃ ps, PermutationGenerator.permutations 4 [1; 2; 3] = Ok ps
        ∧ length ps = fact 3.
Proof. apply (permutations_count 4 [1; 2; 3]). simpl. lia. Defined.

(** X10. [permutations(elems)] yields no list twice exactly when [elems] has
    no duplicates: with distinct elements every permutation is visited once,
    with a repeated element some permutation is visited more than once. *)
Theorem permutations_NoDup {A : Type} (fuel : nat) (elems : list A) :
  (length elems < fuel)%nat →
  ∃ ps, PermutationGenerator.permutations fuel elems = Ok ps
        ∧ (NoDup ps ↔ NoDup elems).
Proof.
  intros Hfuel. eexists. split; [by apply permutations_arrangements|].
  split; [by apply arrangements_NoDup_inv | by apply arrangements_NoDup].
Qed.

Lemma permutations_NoDup_witness :
  ∃ ps, PermutationGenerator.permutations 3 [1; 1] = Ok ps
        ∧ (NoDup ps ↔ NoDup [1; 1]).
Proof. apply (permutations_NoDup 3 [1; 1]). simpl. lia. Defined.

(** X11. The first list [permutations(elems)] yields is [elems] itself. *)
Theorem permutations_first {A : Type} (fuel : nat) (elems : list A) :
  (length elems < fuel)%nat →
  ∃ ps, PermutationGenerator.permutations fuel elems = Ok ps
        ∧ head ps = Some elems.
Proof.
  intros Hfuel. eexists. split; [by apply permutations_arrangements|].
  by apply arrangements_head.
Qed.

Lemma permutations_first_witness :
  ∃ ps, PermutationGenerator.permutations 4 [1; 2; 3] = Ok ps
        ∧ head ps = Some [1; 2; 3].
Proof. apply (permutations_first 4 [1; 2; 3]). simpl. lia. Defined.

(** X12. [recPermutations(elems, soFar)] yields what [permutations(elems)]
    yields, each list prefixed by [soFar], in the same order. *)
Theorem recPermutations_prefix {A : Type} (fuel : nat) (elems soFar : list A) :
  (length elems < fuel)%nat →
  ∃ ps, PermutationGenerator.permutations fuel elems = Ok ps
        ∧ PermutationGenerator.recPermutations fuel elems soFar
          = Ok ((soFar ++.) <$> ps).
Proof.
  intros Hfuel. eexists. split; [by apply permutations_arrangements|].
  by apply recPermutations_arrangements.
Qed.

Lemma recPermutations_prefix_witness :
  ∃ ps, PermutationGenerator.permutations 3 [2; 3] = Ok ps
        ∧ PermutationGenerator.recPermutations 3 [2; 3] [1]
          = Ok (([1] ++.) <$> ps).
Proof. apply (recPermutations_prefix 3 [2; 3] [1]). simpl. lia. Defined.

Example permutations_1_2_3 :
  PermutationGenerator.permutations 4 [1; 2; 3]
  = Ok [[1; 2; 3]; [1; 3; 2]; [2; 1; 3]; [2; 3; 1]; [3; 1; 2]; [3; 2; 1]].
Proof. reflexivity. Qed.

(** ** RandomBag.py: insertion and random removal *)

Section Bag.
Context {A : Type}.
Implicit Types (elems rest : list A) (x y v : A).

Lemma delete_insert_same elems (i : nat) y :
  delete i (<[i := y]> elems) = delete i elems.
Proof.
  rewrite !delete_take_drop.
  by rewrite take_insert_ge, drop_insert_lt by lia.
Qed.

(** The list after the exchange of [removeRandom], with its last place
    dropped: position [i] holds the former last element. *)
Lemma swap_pop_Permutation elems (i : nat) x y :
  elems !! i = Some x →
  elems !! (length elems - 1)%nat = Some y →
  x :: take (length elems - 1)
         (<[i := y]> (<[(length elems - 1)%nat := x]> elems))
  ≡ₚ elems.
Proof.
  intros Hx Hy.
  pose proof (lookup_lt_Some _ _ _ Hx) as Hi.
  set (k := (length elems - 1)%nat) in *.
  assert (elems = take k elems ++ [y]) as Hsplit.
  { rewrite <- (take_drop k elems) at 1. f_equal.
    rewrite (drop_S _ y k) by done. rewrite drop_ge by lia. done. }
  destruct (decide (i = k)) as [->|Hik].
  - assert (x = y) as -> by congruence.
    rewrite list_insert_insert_eq, take_insert_ge by lia.
    rewrite Hsplit at 2. by rewrite Permutation_app_comm.
  - rewrite take_insert_lt by lia. rewrite take_insert_ge by lia.
    assert (take k elems !! i = Some x) as Hxi
      by (rewrite lookup_take_lt by lia; done).
    rewrite Hsplit at 2.
    rewrite (delete_Permutation (take k elems) i x Hxi) at 2.
    rewrite (delete_Permutation (<[i := y]> (take k elems)) i y)
      by (apply list_lookup_insert_eq; rewrite length_take; lia).
    rewrite delete_insert_same.
    rewrite <- Permutation_cons_append. apply Permutation_swap.
Qed.

Lemma bag_getitem_ok elems (i : nat) x :
  elems !! i = Some x → RandomBag.getitem elems i = Ok x.
Proof. intros Hx. unfold RandomBag.getitem. by rewrite Hx. Qed.

Lemma bag_setitem_ok elems (i : nat) v :
  (i < length elems)%nat → RandomBag.setitem elems i v = Ok (<[i := v]> elems).
Proof. intros Hi. unfold RandomBag.setitem. by rewrite decide_True. Qed.

(** What [removeRandom] computes when the draw is an index of the list. *)
Lemma removeRandom_run elems (draw : nat) x y :
  elems !! draw = Some x →
  elems !! (length elems - 1)%nat = Some y →
  RandomBag.removeRandom elems draw
  = Ok (x, take (length elems - 1)
             (<[draw := y]> (<[(length elems - 1)%nat := x]> elems))).
Proof.
  intros Hx Hy.
  pose proof (lookup_lt_Some _ _ _ Hx) as Hi.
  unfold RandomBag.removeRandom, RandomBag.len.
  rewrite decide_True by lia. cbv zeta.
  rewrite (bag_getitem_ok _ _ x), bind_Ok by done.
  unfold RandomBag.getitem_last, RandomBag.setitem_last.
  destruct (length elems) as [|k] eqn:Hlen; [lia|].
  replace (S k - 1)%nat with k in * by lia.
  rewrite (bag_getitem_ok _ _ y), bind_Ok by done.
  rewrite bag_setitem_ok, bind_Ok by lia.
  rewrite bag_setitem_ok, bind_Ok by (rewrite length_insert; lia).
  unfold RandomBag.pop. rewrite !length_insert, Hlen.
  rewrite (bag_getitem_ok _ _ x); [done|].
  destruct (decide (draw = k)) as [->|Hne].
  - rewrite list_lookup_insert_eq by (rewrite length_insert; lia). congruence.
  - rewrite list_lookup_insert_ne by done.
    apply list_lookup_insert_eq. lia.
Qed.

End Bag.

(** X13. With a draw that [randint(0, len - 1)] can give, [removeRandom]
    hands back the element at the drawn position and leaves a list that,
    together with that element, is a rearrangement of the old one: one
    occurrence of the element is removed and nothing else is lost or added. *)
Theorem removeRandom_removes {A : Type} (elems : list A) (draw : nat) :
  (draw < RandomBag.len elems)%nat →
  ∃ x rest, RandomBag.removeRandom elems draw = Ok (x, rest)
            ∧ elems !! draw = Some x
            ∧ x :: rest ≡ₚ elems
            ∧ S (RandomBag.len rest) = RandomBag.len elems.
Proof.
  unfold RandomBag.len. intros Hdraw.
  destruct (lookup_lt_is_Some_2 elems draw Hdraw) as [x Hx].
  destruct (lookup_lt_is_Some_2 elems (length elems - 1)) as [y Hy]; [lia|].
  eexists x, _. split; [by apply removeRandom_run|]. split; [done|].
  split; [by apply swap_pop_Permutation|].
  rewrite length_take, !length_insert. lia.
Qed.

Lemma removeRandom_removes_witness :
  ∃ x rest, RandomBag.removeRandom [5; 6; 7] 0 = Ok (x, rest)
            ∧ [5; 6; 7] !! 0%nat = Some x
            ∧ x :: rest ≡ₚ [5; 6; 7]
            ∧ S (RandomBag.len rest) = RandomBag.len [5; 6; 7].
Proof. apply (removeRandom_removes [5; 6; 7] 0). simpl. lia. Defined.



(** X15. [removeRandom] raises [AssertionError] exactly on the empty bag,
    whatever the draw. *)
Theorem removeRandom_empty_iff {A : Type} (elems : list A) (draw : nat) :
  RandomBag.removeRandom elems draw = Raise AssertionError ↔ elems = [].
Proof.
  split; [|by intros ->].
  intros Hrun. destruct elems as [|e elems]; [done|]. exfalso.
  destruct (decide (draw < length (e :: elems))%nat) as [Hlt|Hge].
  - destruct (removeRandom_removes (e :: elems) draw Hlt) as (x & rest & Hok & _).
    congruence.
  - revert Hrun. unfold RandomBag.removeRandom, RandomBag.len.
    rewrite decide_True by (simpl; lia). cbv zeta.
    unfold RandomBag.getitem at 1.
    rewrite (lookup_ge_None_2 (e :: elems) draw) by lia. done.
Qed.

(** X16. Inserting a value and then removing with the draw on the last
    position hands that value back and restores the bag. *)
Theorem insert_removeRandom {A : Type} (elems : list A) (v : A) :
  RandomBag.removeRandom (RandomBag.insert elems v) (RandomBag.len elems)
  = Ok (v, elems).
Proof.
  unfold RandomBag.insert, RandomBag.len.
  rewrite (removeRandom_run _ _ v v).
  - rewrite length_app. simpl.
    replace (length elems + 1 - 1)%nat with (length elems) by lia.
    rewrite list_insert_insert_eq.
    rewrite take_insert_ge by lia. by rewrite take_app_length.
  - by rewrite lookup_app_r, Nat.sub_diag by lia.
  - rewrite length_app. simpl.
    rewrite lookup_app_r by lia.
    by replace (length elems + 1 - 1 - length elems)%nat with 0%nat by lia.
Qed.

(** ** EgyptianFractions.py: the greedy decomposition *)

Section Egyptian.
Import EgyptianFractions.

Lemma coprime_canon (r : Qc) : Z.gcd (numerator r) (denominator r) = 1.
Proof.
  unfold numerator, denominator. destruct r as [q Hq]. simpl.
  rewrite <- Hq. apply gcd_Qred.
Qed.

Lemma Qc_pos_numerator (r : Qc) : (0 < r)%Qc ↔ 0 < numerator r.
Proof.
  unfold Qclt, Qlt, numerator. simpl. lia.
Qed.

Lemma Qc_lt_1 (r : Qc) : (r < 1)%Qc ↔ numerator r < denominator r.
Proof.
  unfold Qclt, Qlt, numerator, denominator. simpl. lia.
Qed.

Lemma numerator_Q2Qc (q : Q) :
  0 < Qnum q → 0 < numerator (Q2Qc q) ≤ Qnum q.
Proof.
  intros Hpos. unfold numerator. simpl.
  pose proof (Qred_correct q) as Heq. unfold Qeq in Heq.
  pose proof (gcd_Qred q) as Hgcd.
  set (n' := Qnum (Qred q)) in *. set (d' := Qden (Qred q)) in *.
  assert (0 < n') as Hn' by nia.
  split; [done|].
  apply Z.divide_pos_le; [done|].
  apply (Z.gauss n' (Zpos d')); [|done].
  exists (Zpos (Qden q)). lia.
Qed.

Lemma unit_fraction (p : positive) :
  this (Q2Qc (1 # p)) = (1 # p)%Q.
Proof. reflexivity. Qed.

(** Facts about one round of the loop, on integers. *)
Lemma greedy_step_Z (a b : Z) :
  2 ≤ a → a < b → Z.gcd a b = 1 →
  let k := b / a + 1 in
  2 ≤ k ∧ a * (k - 1) < b ∧ b < a * k.
Proof.
  intros Ha Hab Hgcd k. subst k.
  pose proof (Z.div_mod b a ltac:(lia)) as Hdm.
  pose proof (Z.mod_pos_bound b a ltac:(lia)) as Hm.
  assert (b mod a ≠ 0) as Hnz.
  { intros Hz. assert (a | b)%Z as Hdiv by (apply Z.mod_divide; lia).
    assert (Z.gcd a b = a) by (apply Z.divide_gcd_iff; [lia|done]). lia. }
  assert (1 ≤ b / a) by (apply Z.div_le_lower_bound; lia).
  split; [lia|]. split; nia.
Qed.

Section Step.
Variable r : Qc.
Hypothesis r_pos : (0 < r)%Qc.
Hypothesis r_lt_1 : (r < 1)%Qc.
Hypothesis r_not_unit : numerator r ≠ 1.

Let a := numerator r.
Let b := denominator r.
Let k := b / a + 1.
Let u := Q2Qc (1 # Z.to_pos k).

Lemma step_facts : 2 ≤ a ∧ 2 ≤ k ∧ a * (k - 1) < b ∧ b < a * k.
Proof.
  assert (0 < a) by by apply Qc_pos_numerator.
  assert (a < b) by by apply Qc_lt_1.
  assert (2 ≤ a) by (unfold a in *; lia).
  split; [done|]. apply greedy_step_Z; try done. apply coprime_canon.
Qed.

Lemma step_Fraction : Fraction 1 k = Some u.
Proof.
  destruct step_facts as (_ & Hk & _).
  unfold u. destruct k; try lia. done.
Qed.

Lemma step_unit_lt : (u < r)%Qc.
Proof.
  destruct step_facts as (Ha & Hk & Hlo & Hhi).
  unfold Qclt, u. rewrite unit_fraction.
  unfold Qlt. simpl. rewrite Z2Pos.id by lia.
  fold (numerator r) (denominator r). fold a b. lia.
Qed.

Lemma step_this : (this (r - u)%Qc == this r - (1 # Z.to_pos k))%Q.
Proof.
  unfold Qcminus, Qcplus, Qcopp. unfold u. simpl.
  rewrite !Qred_correct. reflexivity.
Qed.

Lemma step_rest_lt : (r - u < u)%Qc.
Proof.
  destruct step_facts as (Ha & Hk & Hlo & Hhi).
  assert (a < b) by by apply Qc_lt_1.
  unfold Qclt. rewrite step_this. unfold u. rewrite unit_fraction.
  unfold Qlt, Qminus, Qplus, Qopp. simpl.
  rewrite !Pos2Z.inj_mul, !Z2Pos.id by lia.
  fold (numerator r) (denominator r). fold a b. nia.
Qed.

Lemma step_numerator : 0 < numerator (r - u)%Qc < a.
Proof.
  destruct step_facts as (Ha & Hk & Hlo & Hhi).
  assert (this (r - u)%Qc = Qred (this r - (1 # Z.to_pos k))%Q) as Hthis.
  { pose proof step_this as Hc. apply Qred_complete in Hc.
    rewrite <- Hc. symmetry. apply (canon (r - u)%Qc). }
  pose proof (numerator_Q2Qc (this r - (1 # Z.to_pos k))%Q) as Hn.
  unfold numerator. rewrite Hthis.
  unfold numerator in Hn. simpl in Hn.
  rewrite Z2Pos.id in Hn by lia.
  change (Qnum r) with a in Hn. change (Z.pos (Qden r)) with b in Hn.
  lia.
Qed.

End Step.

Lemma step_greedy (r : Qc) (m : positive) :
  (0 < r)%Qc → (r < 1)%Qc → numerator r ≠ 1 →
  (Q2Qc (1 # m) ≤ r)%Qc →
  (Q2Qc (1 # m) ≤ Q2Qc (1 # Z.to_pos (denominator r / numerator r + 1)))%Qc.
Proof.
  intros Hpos Hlt Hnu Hm.
  destruct (step_facts r Hpos Hlt Hnu) as (Ha & Hk & Hlo & Hhi).
  unfold Qcle in *. rewrite !unit_fraction in *.
  unfold Qle in *. simpl in *. rewrite Z2Pos.id by lia.
  fold (numerator r) (denominator r) in Hm. nia.
Qed.

Lemma greedy_loop_spec :
  ∀ (fuel : nat) (r : Qc) (acc : list Qc),
    (0 < r)%Qc → (r < 1)%Qc →
    (Z.to_nat (numerator r) ≤ fuel)%nat →
    ∃ tl,
      greedy_loop fuel r acc = Returned (acc ++ tl)
      ∧ Forall (fun x => numerator x = 1) tl
      ∧ Qc_sum tl = r
      ∧ Forall (fun x => (x ≤ r)%Qc) tl
      ∧ StronglySorted (fun x y => (y < x)%Qc) tl
      ∧ (1 ≤ length tl ≤ Z.to_nat (numerator r))%nat
      ∧ (∀ (i : nat) (x : Qc), tl !! i = Some x →
           (x ≤ r - Qc_sum (take i tl))%Qc
           ∧ ∀ m : positive,
               (Q2Qc (1 # m) ≤ r - Qc_sum (take i tl))%Qc →
               (Q2Qc (1 # m) ≤ x)%Qc).
Proof.
  induction fuel as [|fuel IH]; intros r acc Hpos Hlt Hfuel.
  { apply Qc_pos_numerator in Hpos. lia. }
  pose proof (proj1 (Qc_pos_numerator r) Hpos) as Hnum.
  cbn [greedy_loop]. case_decide as Hunit.
  - exists [r]. split; [done|]. split; [by repeat constructor|].
    split; [unfold Qc_sum; simpl; ring|].
    split; [repeat constructor; apply Qcle_refl|].
    split; [repeat constructor|]. split; [simpl; lia|].
    intros [|i] x Hx; simpl in Hx; [|by destruct i].
    injection Hx as <-. unfold Qc_sum. simpl.
    replace (r - 0)%Qc with r by ring.
    split; [apply Qcle_refl | done].
  - rewrite decide_False by lia.
    rewrite (step_Fraction r Hpos Hlt Hunit).
    set (u := Q2Qc (1 # Z.to_pos (denominator r / numerator r + 1))).
    pose proof (step_unit_lt r Hpos Hlt Hunit) as Hu. fold u in Hu.
    pose proof (step_rest_lt r Hpos Hlt Hunit) as Hrest. fold u in Hrest.
    pose proof (step_numerator r Hpos Hlt Hunit) as Hdec. fold u in Hdec.
    assert (0 < r - u)%Qc as Hpos' by (apply Qc_pos_numerator; lia).
    assert (r - u < 1)%Qc as Hlt'.
    { exact (Qclt_trans _ _ _ Hrest (Qclt_trans _ _ _ Hu Hlt)). }
    destruct (IH (r - u)%Qc (acc ++ [u]) Hpos' Hlt' ltac:(lia))
      as (tl & Hrun & Hunits & Hsum & Hle & Hsorted & Hlen & Hgreedy).
    exists (u :: tl). rewrite Hrun, <- app_assoc. split; [done|].
    split; [by constructor|].
    split; [unfold Qc_sum in *; simpl; rewrite Hsum; ring|].
    split.
    { constructor; [by apply Qclt_le_weak|].
      eapply List.Forall_impl; [|exact Hle]. intros x Hx. simpl in *.
      eapply Qcle_trans; [exact Hx|]. apply Qclt_le_weak.
      exact (Qclt_trans _ _ _ Hrest Hu). }
    split.
    { constructor; [done|].
      eapply List.Forall_impl; [|exact Hle]. intros x Hx. simpl in *.
      exact (Qcle_lt_trans _ _ _ Hx Hrest). }
    split; [simpl; lia|].
    intros [|i] x Hx; simpl in Hx.
    + injection Hx as <-. unfold Qc_sum. simpl.
      replace (r - 0)%Qc with r by ring.
      split; [by apply Qclt_le_weak|].
      intros m Hm. by apply step_greedy.
    + specialize (Hgreedy i x Hx).
      unfold Qc_sum in *. simpl.
      by replace (r - (u + foldr Qcplus 0 (take i tl)))%Qc
        with (r - u - foldr Qcplus 0 (take i tl))%Qc by ring.
Qed.

End Egyptian.

Lemma greedy_loop_no_Exception (fuel : nat) (r q : Qc) (acc : list Qc) :
  EgyptianFractions.greedy_loop fuel r acc
  ≠ EgyptianFractions.RaisedException q.
Proof.
  revert r acc. induction fuel as [|fuel IH]; intros r acc; [done|].
  cbn [EgyptianFractions.greedy_loop].
  repeat case_decide; try done.
  destruct (EgyptianFractions.Fraction _ _); [apply IH | done].
Qed.

Lemma decreasing_NoDup (l : list Qc) :
  StronglySorted (fun x y => (y < x)%Qc) l → NoDup l.
Proof.
  induction 1 as [|x l Hs IH Hall]; constructor; [|done].
  intros Hin. rewrite List.Forall_forall in Hall.
  apply list_elem_of_In in Hin. specialize (Hall x Hin).
  by apply Qclt_not_eq in Hall.
Qed.

(** X17. For a fraction strictly between 0 and 1, [greedyEgyptianFraction]
    returns (its loop runs at most numerator many times) a list of unit
    fractions whose sum is the input. *)
Theorem greedy_unit_fractions_sum (fuel : nat) (r : Qc) :
  (0 < r)%Qc → (r < 1)%Qc →
  (Z.to_nat (EgyptianFractions.numerator r) ≤ fuel)%nat →
  ∃ l, EgyptianFractions.greedyEgyptianFraction fuel r
       = EgyptianFractions.Returned l
       ∧ Forall (fun x => EgyptianFractions.numerator x = 1) l
       ∧ Qc_sum l = r.
Proof.
  intros Hpos Hlt Hfuel.
  destruct (greedy_loop_spec fuel r [] Hpos Hlt Hfuel)
    as (l & Hrun & Hunits & Hsum & _).
  exists l. unfold EgyptianFractions.greedyEgyptianFraction.
  rewrite decide_False.
  - by rewrite Hrun.
  - intros [H|H]; [by apply Qcle_not_lt in H | by apply Qcle_not_lt in H].
Qed.

Lemma greedy_unit_fractions_sum_witness :
  ∃ l, EgyptianFractions.greedyEgyptianFraction 2 (Q2Qc (2 # 3))
       = EgyptianFractions.Returned l
       ∧ Forall (fun x => EgyptianFractions.numerator x = 1) l
       ∧ Qc_sum l = Q2Qc (2 # 3).
Proof.
  apply greedy_unit_fractions_sum; [reflexivity | reflexivity | vm_compute; lia].
Defined.

Lemma greedy_in_range (fuel : nat) (r : Qc) :
  (0 < r)%Qc → (r < 1)%Qc →
  EgyptianFractions.greedyEgyptianFraction fuel r
  = EgyptianFractions.greedy_loop fuel r [].
Proof.
  intros Hpos Hlt. unfold EgyptianFractions.greedyEgyptianFraction.
  rewrite decide_False; [done|].
  intros [H|H]; [by apply Qcle_not_lt in H | by apply Qcle_not_lt in H].
Qed.

(** X18. The fractions [greedyEgyptianFraction] returns are strictly
    decreasing, so no unit fraction is used twice. *)
Theorem greedy_fractions_distinct (fuel : nat) (r : Qc) :
  (0 < r)%Qc → (r < 1)%Qc →
  (Z.to_nat (EgyptianFractions.numerator r) ≤ fuel)%nat →
  ∃ l, EgyptianFractions.greedyEgyptianFraction fuel r
       = EgyptianFractions.Returned l
       ∧ StronglySorted (fun x y => (y < x)%Qc) l
       ∧ NoDup l.
Proof.
  intros Hpos Hlt Hfuel.
  destruct (greedy_loop_spec fuel r [] Hpos Hlt Hfuel)
    as (l & Hrun & _ & _ & _ & Hsorted & _).
  exists l. rewrite greedy_in_range by done.
  split; [done|]. split; [done|]. by apply decreasing_NoDup.
Qed.

Lemma greedy_fractions_distinct_witness :
  ∃ l, EgyptianFractions.greedyEgyptianFraction 2 (Q2Qc (2 # 3))
       = EgyptianFractions.Returned l
       ∧ StronglySorted (fun x y => (y < x)%Qc) l
       ∧ NoDup l.
Proof.
  apply greedy_fractions_distinct;
    [reflexivity | reflexivity | vm_compute; lia].
Defined.

(** X19. [greedyEgyptianFraction] returns at least one fraction and at most
    as many as the numerator of its argument. *)
Theorem greedy_fractions_count (fuel : nat) (r : Qc) :
  (0 < r)%Qc → (r < 1)%Qc →
  (Z.to_nat (EgyptianFractions.numerator r) ≤ fuel)%nat →
  ∃ l, EgyptianFractions.greedyEgyptianFraction fuel r
       = EgyptianFractions.Returned l
       ∧ (1 ≤ length l ≤ Z.to_nat (EgyptianFractions.numerator r))%nat.
Proof.
  intros Hpos Hlt Hfuel.
  destruct (greedy_loop_spec fuel r [] Hpos Hlt Hfuel)
    as (l & Hrun & _ & _ & _ & _ & Hlen & _).
  exists l. rewrite greedy_in_range by done. by split.
Qed.

Lemma greedy_fractions_count_witness :
  ∃ l, EgyptianFractions.greedyEgyptianFraction 2 (Q2Qc (2 # 3))
       = EgyptianFractions.Returned l
       ∧ (1 ≤ length l
          ≤ Z.to_nat (EgyptianFractions.numerator (Q2Qc (2 # 3))))%nat.
Proof.
  apply greedy_fractions_count;
    [reflexivity | reflexivity | vm_compute; lia].
Defined.



(** X21. [greedyEgyptianFraction] raises its [Exception], carrying the
    argument, exactly when the argument is not strictly between 0 and 1. *)
Theorem greedy_out_of_range (fuel : nat) (r q : Qc) :
  EgyptianFractions.greedyEgyptianFraction fuel r
  = EgyptianFractions.RaisedException q
  ↔ q = r ∧ (r ≤ 0 ∨ 1 ≤ r)%Qc.
Proof.
  unfold EgyptianFractions.greedyEgyptianFraction.
  case_decide as Hrange; split.
  - intros [= ->]. done.
  - intros [-> _]. done.
  - intros Hrun. by apply greedy_loop_no_Exception in Hrun.
  - intros [_ H]. done.
Qed.

(** The decomposition worked out in the header of the file. *)
Example greedy_42_137 :
  ∃ l, EgyptianFractions.greedyEgyptianFraction 42 (Q2Qc (42 # 137))
       = EgyptianFractions.Returned l
       ∧ this <$> l = [1 # 4; 1 # 18; 1 # 987; 1 # 1622628]%Q.
Proof. eexists. split; vm_compute; reflexivity. Qed.
